(** * py-ecc-core: curve and point arithmetic, ECDH and ECDSA

    A shallow embedding of [ecc_core.py], [ecdh.py] and [ecdsa.py].
    Python integers are [Z], [bytes] values are [list byte], [None] is the
    [None] of [option].  A Python call either returns, raises, or keeps
    running; the three outcomes are the constructors of [result]. *)

From Stdlib Require Import ZArith List String Bool Lia.
From Stdlib.Strings Require Import Byte.
From Stdlib Require Import Znumtheory Zdivisibility Zcong Zmod NsatzTactic.
Import ListNotations.
#[local] Open Scope Z_scope.

(** ** Outcomes of a Python call *)

Inductive exn : Type :=
| TypeError
| ValueError
| ZeroDivisionError
| OverflowError
| RecursionError.

(** [Ok v]: the call returned [v].  [Raise e]: it raised [e].
    [Running]: a [while] loop was still iterating when the fuel given to
    the model ran out (Python itself would keep going). *)
Inductive result (A : Type) : Type :=
| Ok (v : A)
| Raise (e : exn)
| Running.

Arguments Ok {A} v.
Arguments Raise {A} e.
Arguments Running {A}.

Definition bind {A B : Type} (m : result A) (f : A -> result B) : result B :=
  match m with
  | Ok v => f v
  | Raise e => Raise e
  | Running => Running
  end.

Declare Scope py_scope.
Delimit Scope py_scope with py.
Notation "x <- m ;; k" := (bind m (fun x => k))
  (at level 61, m at next level, right associativity) : py_scope.
Notation "' pat <- m ;; k" := (bind m (fun x => match x with pat => k end))
  (at level 61, pat pattern, m at next level, right associativity) : py_scope.
#[local] Open Scope py_scope.

Definition returned {A : Type} (m : result A) : bool :=
  match m with Ok _ => true | _ => false end.

(** [a % m] is only evaluated when [m] is non-zero; [mod_guard m v] is the
    value [v] of an expression all of whose [%] have modulus [m]. *)
Definition mod_guard {A : Type} (m : Z) (v : A) : result A :=
  if m =? 0 then Raise ZeroDivisionError else Ok v.

(** [pow(z, -1, m)]: the inverse of [z] modulo [m], [ValueError] when [m] is
    zero or [z] is not invertible. *)
Definition pow_inv (z m : Z) : result Z :=
  if m =? 0 then Raise ValueError
  else if Z.gcd z m =? 1 then Ok (Z.invmod z m)
  else Raise ValueError.

(** [pow(n, e, m)] for the non-negative exponents of [modular_inverse]. *)
Definition pow_mod (z e m : Z) : result Z :=
  if m =? 0 then Raise ValueError
  else if e <? 0 then pow_inv (z ^ (- e)) m
  else Ok (z ^ e mod m).

Definition opt_eqb (u v : option Z) : bool :=
  match u, v with
  | None, None => true
  | Some i, Some j => i =? j
  | _, _ => false
  end.

(** ** Curves and points ([ecc_core.py]) *)

(** [id] is the identity of the Python object (what [is] compares); the
    generator [g] is [Point(self, gx, gy)], built once by [__init__], so it
    is kept as its two coordinates. *)
Module Curve.
Record t : Type := mk {
  id : nat;
  name : string;
  p : Z;
  a : Z;
  b : Z;
  n : Z;
  gx : Z;
  gy : Z
}.
End Curve.

Module Point.
Record t : Type := mk {
  curve : Curve.t;
  x : option Z;
  y : option Z
}.
End Point.

Definition Curve_g (c : Curve.t) : Point.t :=
  Point.mk c (Some (Curve.gx c)) (Some (Curve.gy c)).

Definition modular_inverse (n p : Z) : result Z := pow_mod n (p - 2) p.

(** The congruence tested by the constructor. *)
Definition curve_residue (c : Curve.t) (x y : Z) : Z :=
  (y ^ 2 - (x ^ 3 + Curve.a c * x + Curve.b c)) mod Curve.p c.

Definition Point__init__ (curve : Curve.t) (x y : option Z) : result Point.t :=
  match x, y with
  | None, None => Ok (Point.mk curve None None)
  | Some xv, Some yv =>
      r <- mod_guard (Curve.p curve) (curve_residue curve xv yv) ;;
      if negb (r =? 0) then Raise ValueError
      else Ok (Point.mk curve x y)
  | _, _ => Raise TypeError
  end.

Definition Curve__init__ (id : nat) (name : string) (p a b n gx gy : Z)
  : result Curve.t :=
  let self := Curve.mk id name p a b n gx gy in
  g <- Point__init__ self (Some gx) (Some gy) ;;
  Ok self.

(** [Point.__eq__], given the comparison to use for the two curves. *)
Definition Point_eq_with (curve_eq : Curve.t -> Curve.t -> result bool)
  (self other : Point.t) : result bool :=
  same <- curve_eq (Point.curve self) (Point.curve other) ;;
  Ok (same && opt_eqb (Point.x self) (Point.x other)
           && opt_eqb (Point.y self) (Point.y other)).

(** [Curve.__eq__] compares the tuples [(name, p, a, b, n, g)] element by
    element, stopping at the first difference; two elements that are the
    same object are equal without a call, any other pair of generators is
    compared with [Point.__eq__], which compares their curves again.
    [depth] is the number of frames left before [RecursionError]. *)
Fixpoint Curve_eq_at (depth : nat) (self other : Curve.t) : result bool :=
  match depth with
  | O => Raise RecursionError
  | S d =>
      if negb (String.eqb (Curve.name self) (Curve.name other)) then Ok false
      else if negb (Curve.p self =? Curve.p other) then Ok false
      else if negb (Curve.a self =? Curve.a other) then Ok false
      else if negb (Curve.b self =? Curve.b other) then Ok false
      else if negb (Curve.n self =? Curve.n other) then Ok false
      else if Nat.eqb (Curve.id self) (Curve.id other) then Ok true
      else Point_eq_with (Curve_eq_at d) (Curve_g self) (Curve_g other)
  end.

(** CPython's default recursion limit. *)
Definition recursion_limit : nat := 1000.

Definition Curve__eq__ : Curve.t -> Curve.t -> result bool :=
  Curve_eq_at recursion_limit.

Definition Point__eq__ : Point.t -> Point.t -> result bool :=
  Point_eq_with Curve__eq__.

Definition is_at_infinity (P : Point.t) : bool :=
  match Point.x P, Point.y P with
  | None, None => true
  | _, _ => false
  end.

Definition is_identity (P : Point.t) : bool := is_at_infinity P.

Definition Point__neg__ (self : Point.t) : result Point.t :=
  if is_at_infinity self then Ok self
  else
    match Point.y self with
    | Some yv =>
        Point__init__ (Point.curve self) (Point.x self)
                      (Some (Curve.p (Point.curve self) - yv))
    | None => Raise TypeError
    end.

(** ** Jacobian coordinates *)

Definition jac : Type := Z * Z * Z.

Definition _to_jacobian (P : Point.t) : result jac :=
  match Point.x P, Point.y P with
  | None, None => Ok (1, 1, 0)
  | Some xv, Some yv => Ok (xv, yv, 1)
  | _, _ => Raise TypeError
  end.

Definition _from_jacobian (P : jac) (curve : Curve.t) : result Point.t :=
  let '(x, y, z) := P in
  if z =? 0 then Point__init__ curve None None
  else
    z_inv <- pow_inv z (Curve.p curve) ;;
    let z_inv_sq := (z_inv * z_inv) mod Curve.p curve in
    let x_aff := (x * z_inv_sq) mod Curve.p curve in
    let y_aff := (y * z_inv_sq * z_inv) mod Curve.p curve in
    Point__init__ curve (Some x_aff) (Some y_aff).

Definition _jacobian_double (P : jac) (curve : Curve.t) : result jac :=
  let '(x, y, z) := P in
  if (y =? 0) || (z =? 0) then Ok (1, 1, 0)
  else
    let p := Curve.p curve in
    let y_sq := (y * y) mod p in
    let s := (4 * x * y_sq) mod p in
    let m := (3 * x * x + Curve.a curve * (z ^ 4 mod p)) mod p in
    let x_new := (m * m - 2 * s) mod p in
    let y_new := (m * (s - x_new) - 8 * y_sq * y_sq) mod p in
    let z_new := (2 * y * z) mod p in
    mod_guard p (x_new, y_new, z_new).

Definition _jacobian_add (P Q : jac) (curve : Curve.t) : result jac :=
  let '(x1, y1, z1) := P in
  let '(x2, y2, z2) := Q in
  if z1 =? 0 then Ok Q
  else if z2 =? 0 then Ok P
  else
    let p := Curve.p curve in
    let z1_sq := (z1 * z1) mod p in
    let z2_sq := (z2 * z2) mod p in
    let u1 := (x1 * z2_sq) mod p in
    let u2 := (x2 * z1_sq) mod p in
    let s1 := (y1 * z2_sq * z2) mod p in
    let s2 := (y2 * z1_sq * z1) mod p in
    let h := (u2 - u1) mod p in
    let r := (s2 - s1) mod p in
    _ <- mod_guard p tt ;;
    if h =? 0 then
      if r =? 0 then _jacobian_double P curve
      else Ok (1, 1, 0)
    else
      let h_sq := (h * h) mod p in
      let h_cu := (h * h_sq) mod p in
      let v := (u1 * h_sq) mod p in
      let x3 := (r * r - h_cu - 2 * v) mod p in
      let y3 := (r * (v - x3) - s1 * h_cu) mod p in
      let z3 := (z1 * z2 * h) mod p in
      Ok (x3, y3, z3).

(** ** Point addition and scalar multiplication *)

Definition Point__add__ (self other : Point.t) : result Point.t :=
  same <- Curve__eq__ (Point.curve self) (Point.curve other) ;;
  if negb same then Raise TypeError
  else if is_at_infinity self then Ok other
  else if is_at_infinity other then Ok self
  else
    p_jac <- _to_jacobian self ;;
    q_jac <- _to_jacobian other ;;
    r_jac <- _jacobian_add p_jac q_jac (Point.curve self) ;;
    _from_jacobian r_jac (Point.curve self).

(** The [while k > 0] loop of [__mul__]: the bits of [k] are consumed from
    the least significant one; the doubling of the last round is computed
    and dropped. *)
Fixpoint mul_loop (k : positive) (result_jac current_jac : jac)
  (curve : Curve.t) : result jac :=
  match k with
  | xH =>
      result_jac <- _jacobian_add result_jac current_jac curve ;;
      current_jac <- _jacobian_double current_jac curve ;;
      Ok result_jac
  | xO k' =>
      current_jac <- _jacobian_double current_jac curve ;;
      mul_loop k' result_jac current_jac curve
  | xI k' =>
      result_jac <- _jacobian_add result_jac current_jac curve ;;
      current_jac <- _jacobian_double current_jac curve ;;
      mul_loop k' result_jac current_jac curve
  end.

(** Lines 91 to 100 of [__mul__]: double-and-add for a scalar that passed
    the tests above it. *)
Definition double_and_add (self : Point.t) (k : Z) : result Point.t :=
  current_jac <- _to_jacobian self ;;
  match k with
  | Zpos kp =>
      result_jac <- mul_loop kp (1, 1, 0) current_jac (Point.curve self) ;;
      _from_jacobian result_jac (Point.curve self)
  | _ => _from_jacobian (1, 1, 0) (Point.curve self)
  end.

(** [__mul__] as the call [(-k) * (-self)] made for a negative [k] runs it:
    the scalar of that call is positive, so its own [k < 0] branch is dead. *)
Definition mul_nonneg (self : Point.t) (k : Z) : result Point.t :=
  if is_at_infinity self then Point__init__ (Point.curve self) None None
  else
    r <- mod_guard (Curve.n (Point.curve self)) (k mod Curve.n (Point.curve self)) ;;
    if r =? 0 then Point__init__ (Point.curve self) None None
    else double_and_add self k.

Definition Point__mul__ (self : Point.t) (k : Z) : result Point.t :=
  if is_at_infinity self then Point__init__ (Point.curve self) None None
  else
    r <- mod_guard (Curve.n (Point.curve self)) (k mod Curve.n (Point.curve self)) ;;
    if r =? 0 then Point__init__ (Point.curve self) None None
    else if k <? 0 then
      neg_self <- Point__neg__ self ;;
      mul_nonneg neg_self (- k)
    else double_and_add self k.

Definition Point__rmul__ (self : Point.t) (k : Z) : result Point.t :=
  Point__mul__ self k.

(** ** Bytes and integers *)

Definition bytes : Type := list byte.

Definition byte_to_Z (c : byte) : Z := Z.of_N (Byte.to_N c).

Definition byte_of_Z (z : Z) : byte :=
  match Byte.of_N (Z.to_N (z mod 256)) with
  | Some c => c
  | None => x00
  end.

Definition len (s : bytes) : Z := Z.of_nat (List.length s).

(** [int.from_bytes(s, 'big')] *)
Definition from_bytes (s : bytes) : Z :=
  fold_left (fun acc c => acc * 256 + byte_to_Z c) s 0.

Fixpoint big_endian (count : nat) (v : Z) (acc : bytes) : bytes :=
  match count with
  | O => acc
  | S count' => big_endian count' (v / 256) (byte_of_Z v :: acc)
  end.

(** [v.to_bytes(length, 'big')] *)
Definition to_bytes (v length : Z) : result bytes :=
  if length <? 0 then Raise ValueError
  else if v <? 0 then Raise OverflowError
  else if 256 ^ length <=? v then Raise OverflowError
  else Ok (big_endian (Z.to_nat length) v []).

(** [s * count] for a bytes value [s] of length one. *)
Definition bytes_repeat (c : byte) (count : Z) : bytes :=
  repeat c (Z.to_nat count).

(** [n.bit_length()] *)
Definition bit_length (n : Z) : Z :=
  if n =? 0 then 0 else Z.log2 (Z.abs n) + 1.

(** [a >> s] *)
Definition rshift (a s : Z) : result Z :=
  if s <? 0 then Raise ValueError else Ok (Z.shiftr a s).

(** ** SHA-256 and HMAC ([hashlib], [hmac]) *)

Module SHA256.

(** Wrap-around to 32 bits. *)
Definition w32 (z : Z) : Z := Z.land z 0xffffffff.
Definition rotr (c x : Z) : Z := Z.lor (Z.shiftr x c) (w32 (Z.shiftl x (32 - c))).
Definition Ch (x y z : Z) : Z := Z.lxor (Z.land x y) (Z.land (Z.lxor x 0xffffffff) z).
Definition Maj (x y z : Z) : Z :=
  Z.lxor (Z.lxor (Z.land x y) (Z.land x z)) (Z.land y z).
Definition Sigma0 (x : Z) : Z := Z.lxor (Z.lxor (rotr 2 x) (rotr 13 x)) (rotr 22 x).
Definition Sigma1 (x : Z) : Z := Z.lxor (Z.lxor (rotr 6 x) (rotr 11 x)) (rotr 25 x).
Definition sigma0 (x : Z) : Z := Z.lxor (Z.lxor (rotr 7 x) (rotr 18 x)) (Z.shiftr x 3).
Definition sigma1 (x : Z) : Z := Z.lxor (Z.lxor (rotr 17 x) (rotr 19 x)) (Z.shiftr x 10).

(** The largest [r] below [2 ^ bits] with [r ^ 3 <= n], one bit at a time. *)
Fixpoint cube_root (bits : nat) (n r : Z) : Z :=
  match bits with
  | O => r
  | S bits' =>
      let r' := r + 2 ^ Z.of_nat bits' in
      cube_root bits' n (if r' * r' * r' <=? n then r' else r)
  end.

Definition is_prime (q : Z) : bool :=
  forallb (fun d => negb (q mod Z.of_nat d =? 0)) (seq 2 (Z.to_nat q - 2)).

(** The first 64 prime numbers. *)
Definition primes : list Z :=
  Eval vm_compute in filter is_prime (map Z.of_nat (seq 2 310)).

(** Round constants: the first 32 bits of the fractional parts of the cube
    roots of the primes. *)
Definition K : list Z :=
  Eval vm_compute in map (fun q => w32 (cube_root 40 (q * 2 ^ 96) 0)) primes.

(** Initial hash value: the same for the square roots of the first eight. *)
Definition H0 : list Z :=
  Eval vm_compute in map (fun q => w32 (Z.sqrt (q * 2 ^ 64))) (firstn 8 primes).

(** Message followed by the bit 1, zeros, and the 64-bit length in bits. *)
Definition pad (msg : bytes) : bytes :=
  let l := len msg in
  let zeros := (55 - l) mod 64 in
  msg ++ x80 :: repeat x00 (Z.to_nat zeros) ++ big_endian 8 (8 * l) [].

Fixpoint words (fuel : nat) (s : bytes) : list Z :=
  match fuel, s with
  | S fuel', b0 :: b1 :: b2 :: b3 :: rest =>
      from_bytes [b0; b1; b2; b3] :: words fuel' rest
  | _, _ => []
  end.

Fixpoint blocks (fuel : nat) (w : list Z) : list (list Z) :=
  match fuel, w with
  | S fuel', _ :: _ => firstn 16 w :: blocks fuel' (skipn 16 w)
  | _, _ => []
  end.

(** One round: the window [w] holds the sixteen schedule words from the
    current one on. *)
Definition round (st : list Z * list Z) (kt : Z) : list Z * list Z :=
  let '(regs, w) := st in
  match regs with
  | [a; b; c; d; e; f; g; h] =>
      let wt := nth 0 w 0 in
      let t1 := h + Sigma1 e + Ch e f g + kt + wt in
      let t2 := Sigma0 a + Maj a b c in
      let next := w32 (sigma1 (nth 14 w 0) + nth 9 w 0 + sigma0 (nth 1 w 0) + wt) in
      ([w32 (t1 + t2); a; b; c; w32 (d + t1); e; f; g], tl w ++ [next])
  | _ => st
  end.

Definition compress (h : list Z) (block : list Z) : list Z :=
  let '(regs, _) := fold_left round K (h, block) in
  map (fun '(u, v) => w32 (u + v)) (combine h regs).

Definition digest_words (msg : bytes) : list Z :=
  let padded := pad msg in
  let ws := words (List.length padded) padded in
  fold_left compress (blocks (List.length ws) ws) H0.

End SHA256.

(** [hashlib.sha256(msg).digest()] *)
Definition sha256 (msg : bytes) : bytes :=
  flat_map (fun w => big_endian 4 w []) (SHA256.digest_words msg).

Definition xor_byte (c : Z) (k : byte) : byte := byte_of_Z (Z.lxor (byte_to_Z k) c).

(** [hmac.new(key, msg, hashlib.sha256).digest()] *)
Definition hmac_sha256 (key msg : bytes) : bytes :=
  let key := if 64 <? len key then sha256 key else key in
  let key := key ++ repeat x00 (64 - List.length key) in
  sha256 (map (xor_byte 0x5c) key ++ sha256 (map (xor_byte 0x36) key ++ msg)).

(** [secrets.randbelow(bound)]: [entropy] stands for the bits drawn from the
    operating system. *)
Definition randbelow (entropy bound : Z) : result Z :=
  if bound <=? 0 then Raise ValueError else Ok (entropy mod bound).

(** ** ECDH ([ecdh.py]) *)

Module ecdh.

Definition generate_key_pair (entropy : Z) (curve : Curve.t)
  : result (Z * Point.t) :=
  if Curve.n curve =? 0 then Raise ValueError
  else
    r <- randbelow entropy (Curve.n curve - 1) ;;
    let private_key := r + 1 in
    public_key <- Point__rmul__ (Curve_g curve) private_key ;;
    Ok (private_key, public_key).

Definition derive_shared_secret (private_key : Z) (public_key_other : Point.t)
  : result Point.t :=
  shared_secret_point <- Point__rmul__ public_key_other private_key ;;
  Ok shared_secret_point.

End ecdh.

(** ** ECDSA ([ecdsa.py]) *)

Module ecdsa.

Definition generate_key_pair (entropy : Z) (curve : Curve.t)
  : result (Z * Point.t) :=
  private_key <- randbelow entropy (Curve.n curve) ;;
  public_key <- Point__rmul__ (Curve_g curve) private_key ;;
  Ok (private_key, public_key).

(** Step H2: [while len(t) < n_len]. *)
Fixpoint h2_loop (fuel : nat) (k v t : bytes) (n_len : Z) : result (bytes * bytes) :=
  if len t <? n_len then
    match fuel with
    | O => Running
    | S fuel' =>
        let v := hmac_sha256 k v in
        h2_loop fuel' k v (t ++ v) n_len
    end
  else Ok (v, t).

(** Step H: [while True]. *)
Fixpoint h_loop (fuel : nat) (k v : bytes) (n n_len : Z) : result Z :=
  match fuel with
  | O => Running
  | S fuel' =>
      '(v, t) <- h2_loop fuel k v [] n_len ;;
      k_int <- rshift (from_bytes t) (len t * 8 - bit_length n) ;;
      if (1 <=? k_int) && (k_int <? n) then Ok k_int
      else
        let k := hmac_sha256 k (v ++ [x00]) in
        let v := hmac_sha256 k v in
        h_loop fuel' k v n n_len
  end.

Definition _rfc6979_k (fuel : nat) (priv_key : Z) (msg_hash : bytes)
  (curve : Curve.t) : result Z :=
  let n := Curve.n curve in
  let hash_len := len msg_hash in
  let n_len := (bit_length n + 7) / 8 in
  let v := bytes_repeat x01 hash_len in
  let k := bytes_repeat x00 hash_len in
  priv <- to_bytes priv_key n_len ;;
  let k := hmac_sha256 k (v ++ [x00] ++ priv ++ msg_hash) in
  let v := hmac_sha256 k v in
  priv <- to_bytes priv_key n_len ;;
  let k := hmac_sha256 k (v ++ [x01] ++ priv ++ msg_hash) in
  let v := hmac_sha256 k v in
  h_loop fuel k v n n_len.

(** [depth] counts the frames left for the calls [sign_message] makes to
    itself, [fuel] bounds the loops of the nonce derivation. *)
Fixpoint sign_message_at (depth fuel : nat) (private_key : Z) (message : bytes)
  (curve : Curve.t) : result (Z * Z) :=
  match depth with
  | O => Raise RecursionError
  | S depth' =>
      let msg_hash := sha256 message in
      k <- _rfc6979_k fuel private_key msg_hash curve ;;
      r_point <- Point__rmul__ (Curve_g curve) k ;;
      match Point.x r_point with
      | None => Raise TypeError
      | Some xr =>
          r <- mod_guard (Curve.n curve) (xr mod Curve.n curve) ;;
          if r =? 0 then sign_message_at depth' fuel private_key message curve
          else
            k_inv <- pow_inv k (Curve.n curve) ;;
            let s := (k_inv * (from_bytes msg_hash + r * private_key))
                       mod Curve.n curve in
            if s =? 0 then sign_message_at depth' fuel private_key message curve
            else Ok (r, s)
      end
  end.

Definition sign_message : nat -> Z -> bytes -> Curve.t -> result (Z * Z) :=
  sign_message_at recursion_limit.

Definition verify_signature (public_key : Point.t) (message : bytes)
  (signature : Z * Z) : result bool :=
  let curve := Point.curve public_key in
  let msg_hash_int := from_bytes (sha256 message) in
  let '(r, s) := signature in
  if negb ((1 <=? r) && (r <? Curve.n curve) && ((1 <=? s) && (s <? Curve.n curve)))
  then Ok false
  else
    s_inv <- pow_inv s (Curve.n curve) ;;
    let u1 := (msg_hash_int * s_inv) mod Curve.n curve in
    let u2 := (r * s_inv) mod Curve.n curve in
    lhs <- Point__rmul__ (Curve_g curve) u1 ;;
    rhs <- Point__rmul__ public_key u2 ;;
    P <- Point__add__ lhs rhs ;;
    if is_identity P then Ok false
    else
      match Point.x P with
      | Some xv => Ok (xv mod Curve.n curve =? r)
      | None => Raise TypeError
      end.

End ecdsa.

(** ** Named curves *)

(** Modelled from the spec: [curves.py] is not among the sources; the spec
    asks for the well-known parameters of secp256k1 and secp256r1 (prime,
    a, b, order, generator).  Those of secp256k1 are also spelled out at
    the end of [ecdsa.py] and [ecdh.py]. *)
Definition secp256k1 : Curve.t :=
  Curve.mk 1 "secp256k1"
    0xFFFFFFFFFFFFFFFFFFFFFFFFFFFFFFFFFFFFFFFFFFFFFFFFFFFFFFFEFFFFFC2F
    0 7
    0xFFFFFFFFFFFFFFFFFFFFFFFFFFFFFFFEBAAEDCE6AF48A03BBFD25E8CD0364141
    0x79BE667EF9DCBBAC55A06295CE870B07029BFCDB2DCE28D959F2815B16F81798
    0x483ADA7726A3C4655DA4FBFC0E1108A8FD17B448A68554199C47D08FFB10D4B8.

(** Modelled from the spec: the second named curve of [curves.py]. *)
Definition secp256r1 : Curve.t :=
  Curve.mk 2 "secp256r1"
    0xFFFFFFFF00000001000000000000000000000000FFFFFFFFFFFFFFFFFFFFFFFF
    0xFFFFFFFF00000001000000000000000000000000FFFFFFFFFFFFFFFFFFFFFFFC
    0x5AC635D8AA3A93E7B3EBBD55769886BC651D06B0CC53B0F63BCE3C3E27D2604B
    0xFFFFFFFF00000000FFFFFFFFFFFFFFFFBCE6FAADA7179E84F3B9CAC2FC632551
    0x6B17D1F2E12C4247F8BCE6E563A440F277037D812DEB33A0F4A13945D898C296
    0x4FE342E2FE1A7F9B8EE7EB4A7C0F9E162BCE33576B315ECECBB6406837BF51F5.

(** ** Small curves used as concrete inputs *)

(** [y^2 = x^3 + 4x] over the field of 5 elements has eight points; its
    generator here, [(0, 0)], has order 2. *)
Definition toy2 : Curve.t := Curve.mk 10 "toy" 5 4 0 2 0 0.

(** A second object built from the same arguments as [toy2]. *)
Definition toy2_again : Curve.t := Curve.mk 11 "toy" 5 4 0 2 0 0.

(** The same curve with the generator [(2, 1)], of order 4. *)
Definition toy4 : Curve.t := Curve.mk 12 "toy4" 5 4 0 4 2 1.

(** [y^2 = x^3 + 2x + 2] over the field of 17 elements: a group of prime
    order 19 generated by [(5, 1)]. *)
Definition toy19 : Curve.t := Curve.mk 13 "toy19" 17 2 2 19 5 1.

(** ** Properties of points *)

(** A point that satisfies the test of the constructor. *)
Definition on_curve (P : Point.t) : Prop :=
  match Point.x P, Point.y P with
  | None, None => True
  | Some xv, Some yv =>
      Curve.p (Point.curve P) <> 0 /\ curve_residue (Point.curve P) xv yv = 0
  | _, _ => False
  end.

(** Both coordinates of a finite point lie in [[0, p)]. *)
Definition reduced (P : Point.t) : Prop :=
  match Point.x P, Point.y P with
  | Some xv, Some yv =>
      0 <= xv < Curve.p (Point.curve P) /\ 0 <= yv < Curve.p (Point.curve P)
  | _, _ => True
  end.

Definition infinity (c : Curve.t) : Point.t := Point.mk c None None.

Definition finite (c : Curve.t) (xv yv : Z) : Point.t :=
  Point.mk c (Some xv) (Some yv).

(** ** The field of a curve, and Jacobian triples *)

(** The class of an integer modulo the [p] of the curve. *)
Definition fe (c : Curve.t) (z : Z) : Zmod (Curve.p c) :=
  Zmod.of_Z (Curve.p c) z.

(** The curve equation in Jacobian coordinates,
    [Y^2 = X^3 + a*X*Z^4 + b*Z^6 (mod p)]. *)
Definition jac_on (c : Curve.t) (J : jac) : Prop :=
  let '(x, y, z) := J in
  (y ^ 2 - (x ^ 3 + Curve.a c * x * z ^ 4 + Curve.b c * z ^ 6)) mod Curve.p c = 0.

(** A triple as the arithmetic engine holds it: on the curve, with [Z]
    reduced (the tests [z == 0] of the code are tests modulo [p] then). *)
Definition jac_ok (c : Curve.t) (J : jac) : Prop :=
  jac_on c J /\ 0 <= snd J < Curve.p c.

(** ** The chord-and-tangent law, used in the proofs *)

(** A point with coordinates in the field [Zmod p]: [None] is the identity.
    The definitions below are the textbook group law on such points; the
    proofs relate the Jacobian arithmetic of the code to them. *)
Definition apoint (p : Z) : Type := option (Zmod p * Zmod p).

Section AffineLaw.

Context {p : Z}.
#[local] Open Scope Zmod_scope.

Definition two : Zmod p := 1 + 1.

Definition three : Zmod p := 1 + 1 + 1.

Definition fdiv (u v : Zmod p) : Zmod p := u * Zmod.inv v.

Definition a_on (a b : Zmod p) (P : apoint p) : Prop :=
  match P with
  | None => True
  | Some (x, y) => y * y = x * x * x + a * x + b
  end.

Definition a_neg (P : apoint p) : apoint p :=
  match P with
  | None => None
  | Some (x, y) => Some (x, - y)
  end.

(** The third point of the line of slope [l] through [(x1, y1)] and a point
    of abscissa [x2], reflected. *)
Definition chord (l x1 y1 x2 : Zmod p) : apoint p :=
  let x3 := l * l - x1 - x2 in
  Some (x3, l * (x1 - x3) - y1).

Definition a_add (a : Zmod p) (P Q : apoint p) : apoint p :=
  match P, Q with
  | None, _ => Q
  | _, None => P
  | Some (x1, y1), Some (x2, y2) =>
      if Zmod.eqb x1 x2 then
        if Zmod.eqb y1 y2 && negb (Zmod.eqb y1 0)
        then chord (fdiv (three * x1 * x1 + a) (two * y1)) x1 y1 x2
        else None
      else chord (fdiv (y2 - y1) (x2 - x1)) x1 y1 x2
  end.

(** The ways a sum of two finite points comes out. *)
Inductive add_case (a : Zmod p) (x1 y1 x2 y2 : Zmod p) : apoint p -> Prop :=
| AddChord l : x1 <> x2 -> l * (x2 - x1) = y2 - y1 ->
    add_case a x1 y1 x2 y2 (chord l x1 y1 x2)
| AddTangent l : x1 = x2 -> y1 = y2 -> y1 <> 0 ->
    l * (two * y1) = three * x1 * x1 + a ->
    add_case a x1 y1 x2 y2 (chord l x1 y1 x2)
| AddOpp : x1 = x2 -> y2 = - y1 -> add_case a x1 y1 x2 y2 None.

(** The image of an integer constant in the field. *)
Definition zconst (z : Z) : Zmod p := Ncring_initial.gen_phiZ z.

(** [k] times [P]. *)
Fixpoint a_mul_nat (a : Zmod p) (k : nat) (P : apoint p) : apoint p :=
  match k with
  | O => None
  | S k' => a_add a P (a_mul_nat a k' P)
  end.

End AffineLaw.

(** The point of the field that a [Point] stands for. *)
Definition aff (c : Curve.t) (P : Point.t) : apoint (Curve.p c) :=
  match Point.x P, Point.y P with
  | Some xv, Some yv => Some (fe c xv, fe c yv)
  | _, _ => None
  end.

(** The point that a Jacobian triple stands for: [(X / Z^2, Y / Z^3)]. *)
Definition jaff (c : Curve.t) (J : jac) : apoint (Curve.p c) :=
  let '(x, y, z) := J in
  if z =? 0 then None
  else
    let zi := Zmod.inv (fe c z) in
    Some ((fe c x * (zi * zi))%Zmod, (fe c y * (zi * zi * zi))%Zmod).

(** The curve is not singular: [4 a^3 + 27 b^2 <> 0 (mod p)]. *)
Definition nonsingular (c : Curve.t) : Prop :=
  (4 * Curve.a c ^ 3 + 27 * Curve.b c ^ 2) mod Curve.p c <> 0.

(** [n * P] is the point at infinity, computed as [(n - 1) * P + P]: the
    test [k % n == 0] of [__mul__] answers for the scalar [n] itself without
    running the loop. *)
Definition n_kills (P : Point.t) : Prop :=
  exists T, Point__mul__ P (Curve.n (Point.curve P) - 1) = Ok T /\
            Point__add__ T P = Ok (infinity (Point.curve P)).

(** The point with both coordinates reduced modulo [p]. *)
Definition normalize (P : Point.t) : Point.t :=
  let p := Curve.p (Point.curve P) in
  Point.mk (Point.curve P)
    (option_map (fun v => v mod p) (Point.x P))
    (option_map (fun v => v mod p) (Point.y P)).

(** ** Auxiliary definitions for the proofs *)

(** One attempt of [sign_message]: [Some] signature, or [None] when the
    attempt ends in the call of [sign_message] on the same arguments. *)
Definition sign_attempt (fuel : nat) (d : Z) (m : bytes) (c : Curve.t)
  : result (option (Z * Z)) :=
  let msg_hash := sha256 m in
  k <- ecdsa._rfc6979_k fuel d msg_hash c ;;
  r_point <- Point__rmul__ (Curve_g c) k ;;
  match Point.x r_point with
  | None => Raise TypeError
  | Some xr =>
      r <- mod_guard (Curve.n c) (xr mod Curve.n c) ;;
      if r =? 0 then Ok None
      else
        k_inv <- pow_inv k (Curve.n c) ;;
        let s := (k_inv * (from_bytes msg_hash + r * d)) mod Curve.n c in
        if s =? 0 then Ok None else Ok (Some (r, s))
  end.

(** The point [u1 * G + u2 * Q] of [verify_signature], for [r] and [s]
    that passed the range test. *)
Definition verify_point (public_key : Point.t) (message : bytes) (r s : Z)
  : result Point.t :=
  let curve := Point.curve public_key in
  s_inv <- pow_inv s (Curve.n curve) ;;
  let u1 := (from_bytes (sha256 message) * s_inv) mod Curve.n curve in
  let u2 := (r * s_inv) mod Curve.n curve in
  lhs <- Point__rmul__ (Curve_g curve) u1 ;;
  rhs <- Point__rmul__ public_key u2 ;;
  Point__add__ lhs rhs.

(** The message [b"abc"]. *)
Definition abc : bytes := ["a"%byte; "b"%byte; "c"%byte].

(** * Proofs *)

(** ** Outcomes *)

Lemma bind_Ok {A B : Type} (m : result A) (f : A -> result B) (v : B) :
  bind m f = Ok v -> exists u, m = Ok u /\ f u = Ok v.
Proof.
  destruct m as [u | e |]; simpl; intros H; try discriminate.
  exists u; split; [reflexivity | exact H].
Qed.

Lemma mod_guard_Ok {A : Type} (m : Z) (v u : A) :
  mod_guard m v = Ok u -> m <> 0 /\ u = v.
Proof.
  unfold mod_guard. destruct (Z.eqb_spec m 0); intros H; [discriminate |].
  injection H as <-. split; [assumption | reflexivity].
Qed.

Lemma mod_guard_nonzero {A : Type} (m : Z) (v : A) :
  m <> 0 -> mod_guard m v = Ok v.
Proof.
  intros H. unfold mod_guard. destruct (Z.eqb_spec m 0); [contradiction | reflexivity].
Qed.

(** Splits a hypothesis [bind m f = Ok v] into its two halves. *)
Ltac bind_inv H :=
  let u := fresh "u" in
  let Hm := fresh "Hm" in
  apply bind_Ok in H; destruct H as (u & Hm & H).

(** ** The constructor of [Point] *)

Lemma Point__init__identity (c : Curve.t) :
  Point__init__ c None None = Ok (infinity c).
Proof. reflexivity. Qed.

Lemma Point__init__finite (c : Curve.t) (xv yv : Z) (P : Point.t) :
  Point__init__ c (Some xv) (Some yv) = Ok P ->
  P = finite c xv yv /\ Curve.p c <> 0 /\ curve_residue c xv yv = 0.
Proof.
  unfold Point__init__. intros H. bind_inv H.
  apply mod_guard_Ok in Hm. destruct Hm as [Hp ->].
  destruct (Z.eqb_spec (curve_residue c xv yv) 0) as [E | E]; simpl in H;
    [| discriminate].
  injection H as <-. repeat split; assumption.
Qed.

Lemma Point__init__on_curve (c : Curve.t) (x y : option Z) (P : Point.t) :
  Point__init__ c x y = Ok P ->
  on_curve P /\ Point.curve P = c /\ Point.x P = x /\ Point.y P = y.
Proof.
  destruct x as [xv |], y as [yv |]; try discriminate.
  - intros H. apply Point__init__finite in H. destruct H as (-> & Hp & Hr).
    unfold on_curve; simpl. auto.
  - simpl. intros H. injection H as <-. unfold on_curve; simpl. auto.
Qed.

Lemma Point__init__accepts (c : Curve.t) (xv yv : Z) :
  Curve.p c <> 0 -> curve_residue c xv yv = 0 ->
  Point__init__ c (Some xv) (Some yv) = Ok (finite c xv yv).
Proof.
  intros Hp Hr. unfold Point__init__.
  rewrite mod_guard_nonzero by assumption. simpl. rewrite Hr. reflexivity.
Qed.

(** C9. A point built with exactly one coordinate absent is rejected with
    an error, whichever coordinate it is; with both absent the constructor
    returns the identity, and whenever the constructor returns the identity
    both coordinates were absent. *)
Theorem one_missing_coordinate_raises (c : Curve.t) (v : Z) :
  Point__init__ c None (Some v) = Raise TypeError /\
  Point__init__ c (Some v) None = Raise TypeError /\
  Point__init__ c None None = Ok (infinity c) /\
  forall (x y : option Z) (P : Point.t),
    Point__init__ c x y = Ok P ->
    (is_at_infinity P = true <-> x = None /\ y = None).
Proof.
  split; [reflexivity |]. split; [reflexivity |]. split; [reflexivity |].
  intros x y P H. apply Point__init__on_curve in H.
  destruct H as (_ & _ & Hx & Hy). unfold is_at_infinity. rewrite Hx, Hy.
  destruct x, y; split; try discriminate; try (intros [? ?]; discriminate); auto.
Qed.

(** ** The constructor of [Curve] *)

(** C10. [Curve(name, p, a, b, n, gx, gy)] returns exactly when the
    generator passes the test of the [Point] constructor, that is when
    [gy^2 - (gx^3 + a*gx + b)] is a multiple of a non-zero [p]; the curve it
    returns carries the arguments unchanged and its generator lies on it. *)
Theorem Curve__init__validates_generator
  (id : nat) (name : string) (p a b n gx gy : Z) :
  (returned (Curve__init__ id name p a b n gx gy) = true <->
   p <> 0 /\ (gy ^ 2 - (gx ^ 3 + a * gx + b)) mod p = 0) /\
  forall c : Curve.t,
    Curve__init__ id name p a b n gx gy = Ok c ->
    c = Curve.mk id name p a b n gx gy /\
    Curve_g c = finite c gx gy /\ on_curve (Curve_g c).
Proof.
  split.
  - unfold Curve__init__. split.
    + destruct (Point__init__ _ _ _) as [g | e |] eqn:Hg; try discriminate.
      intros _. apply Point__init__finite in Hg.
      destruct Hg as (_ & Hp & Hr). split; assumption.
    + intros [Hp Hr]. rewrite Point__init__accepts by assumption. reflexivity.
  - intros c H. unfold Curve__init__ in H. bind_inv H.
    injection H as <-. apply Point__init__on_curve in Hm.
    destruct Hm as (Hon & Hc & Hx & Hy).
    split; [reflexivity |]. split; [reflexivity |].
    unfold on_curve in *. simpl in *. rewrite Hc, Hx, Hy in Hon. exact Hon.
Qed.

(** ** Equality of curves and points *)

Lemma Curve_eq_at_same_object (d : nat) (c : Curve.t) :
  Curve_eq_at (S d) c c = Ok true.
Proof.
  simpl. rewrite String.eqb_refl, !Z.eqb_refl, Nat.eqb_refl. reflexivity.
Qed.

Lemma Curve__eq__same_object (c : Curve.t) : Curve__eq__ c c = Ok true.
Proof. apply Curve_eq_at_same_object. Qed.

(** Two objects that agree on [name], [p], [a], [b] and [n]: the comparison
    reaches the generators, which sends it back to the curves. *)
Lemma Curve_eq_at_distinct_objects (depth : nat) (c1 c2 : Curve.t) :
  Curve.name c1 = Curve.name c2 -> Curve.p c1 = Curve.p c2 ->
  Curve.a c1 = Curve.a c2 -> Curve.b c1 = Curve.b c2 ->
  Curve.n c1 = Curve.n c2 -> Curve.id c1 <> Curve.id c2 ->
  Curve_eq_at depth c1 c2 = Raise RecursionError.
Proof.
  intros Hname Hp Ha Hb Hn Hid.
  induction depth as [| d IH]; [reflexivity |].
  simpl. rewrite Hname, Hp, Ha, Hb, Hn.
  rewrite String.eqb_refl, !Z.eqb_refl. simpl.
  destruct (Nat.eqb_spec (Curve.id c1) (Curve.id c2)) as [E | _];
    [contradiction |].
  unfold Point_eq_with. simpl. rewrite IH. reflexivity.
Qed.

Lemma Curve_eq_at_differ (d : nat) (c1 c2 : Curve.t) :
  Curve.p c1 <> Curve.p c2 \/ Curve.a c1 <> Curve.a c2 \/
  Curve.b c1 <> Curve.b c2 \/ Curve.n c1 <> Curve.n c2 ->
  Curve_eq_at (S d) c1 c2 = Ok false.
Proof.
  intros H. simpl.
  destruct (String.eqb _ _); [| reflexivity]. simpl.
  destruct (Z.eqb_spec (Curve.p c1) (Curve.p c2)); [| reflexivity]. simpl.
  destruct (Z.eqb_spec (Curve.a c1) (Curve.a c2)); [| reflexivity]. simpl.
  destruct (Z.eqb_spec (Curve.b c1) (Curve.b c2)); [| reflexivity]. simpl.
  destruct (Z.eqb_spec (Curve.n c1) (Curve.n c2)); [| reflexivity]. simpl.
  tauto.
Qed.

(** On one curve object, equality of points is equality of coordinates. *)
Lemma Point__eq__same_curve (P Q : Point.t) :
  Point.curve P = Point.curve Q ->
  Point__eq__ P Q =
  Ok (opt_eqb (Point.x P) (Point.x Q) && opt_eqb (Point.y P) (Point.y Q)).
Proof.
  intros E. unfold Point__eq__, Point_eq_with. rewrite E.
  rewrite Curve__eq__same_object. reflexivity.
Qed.

Lemma Point__eq__distinct_objects (P Q : Point.t) :
  Curve.name (Point.curve P) = Curve.name (Point.curve Q) ->
  Curve.p (Point.curve P) = Curve.p (Point.curve Q) ->
  Curve.a (Point.curve P) = Curve.a (Point.curve Q) ->
  Curve.b (Point.curve P) = Curve.b (Point.curve Q) ->
  Curve.n (Point.curve P) = Curve.n (Point.curve Q) ->
  Curve.id (Point.curve P) <> Curve.id (Point.curve Q) ->
  Point__eq__ P Q = Raise RecursionError.
Proof.
  intros. unfold Point__eq__, Point_eq_with, Curve__eq__.
  rewrite Curve_eq_at_distinct_objects by assumption. reflexivity.
Qed.

(** C8, at the failing input.  [toy2] and [toy2_again] are two curve
    objects built from the same arguments, so their parameters and
    generators match; comparing their generators, which have the same
    coordinates, does not return [True] (nor [False]): the comparison of
    the curves and the comparison of their generators call each other until
    the interpreter raises [RecursionError].  On a single curve object the
    comparison is the comparison of the coordinates. *)
Theorem comparing_points_of_equal_curves_raises :
  Curve__init__ 10 "toy" 5 4 0 2 0 0 = Ok toy2 /\
  Curve__init__ 11 "toy" 5 4 0 2 0 0 = Ok toy2_again /\
  Point__eq__ (Curve_g toy2) (Curve_g toy2_again) = Raise RecursionError /\
  Point__eq__ (Curve_g toy2) (Curve_g toy2) = Ok true.
Proof.
  split; [reflexivity |]. split; [reflexivity |]. split.
  - apply Point__eq__distinct_objects; simpl; congruence.
  - rewrite Point__eq__same_curve by reflexivity. reflexivity.
Qed.

(** ** Negation *)

Lemma curve_residue_neg (c : Curve.t) (xv yv : Z) :
  curve_residue c xv (Curve.p c - yv) = curve_residue c xv yv.
Proof.
  unfold curve_residue.
  replace ((Curve.p c - yv) ^ 2 - (xv ^ 3 + Curve.a c * xv + Curve.b c))
    with (yv ^ 2 - (xv ^ 3 + Curve.a c * xv + Curve.b c)
          + (Curve.p c - 2 * yv) * Curve.p c) by ring.
  rewrite Z_mod_plus_full. reflexivity.
Qed.

(** What [__neg__] returns on a point that lies on its curve. *)
Lemma Point__neg__finite (c : Curve.t) (xv yv : Z) :
  on_curve (finite c xv yv) ->
  Point__neg__ (finite c xv yv) = Ok (finite c xv (Curve.p c - yv)).
Proof.
  unfold on_curve; simpl. intros [Hp Hr].
  unfold Point__neg__; simpl.
  apply Point__init__accepts; [assumption |].
  rewrite curve_residue_neg. assumption.
Qed.

Lemma Point__neg__identity (c : Curve.t) :
  Point__neg__ (infinity c) = Ok (infinity c).
Proof. reflexivity. Qed.

(** The second coordinate [p - y] is the residue [(p - y) mod p] exactly
    when [y] is not zero (for [y] in [[0, p)]). *)
Lemma neg_coordinate_reduced (p yv : Z) :
  0 <= yv < p -> (p - yv = (p - yv) mod p <-> yv <> 0).
Proof.
  intros Hy. split.
  - intros E Hz. subst yv. rewrite Z.sub_0_r, Z_mod_same_full in E. lia.
  - intros Hz. rewrite Z.mod_small by lia. reflexivity.
Qed.

(** C6, at the failing input.  [(1, 0)] lies on [toy2] (it is a point of
    order two); its negation is returned with second coordinate [p - 0 = 5],
    which is not the residue [(p - 0) mod p = 0] and lies outside [[0, p)];
    the result then differs from the point itself under [__eq__]. *)
Theorem negate_of_point_with_zero_y :
  Point__init__ toy2 (Some 1) (Some 0) = Ok (finite toy2 1 0) /\
  Point__neg__ (finite toy2 1 0) = Ok (finite toy2 1 5) /\
  (Curve.p toy2 - 0) mod Curve.p toy2 = 0 /\
  ~ reduced (finite toy2 1 5) /\
  Point__eq__ (finite toy2 1 0) (finite toy2 1 5) = Ok false.
Proof.
  split; [reflexivity |]. split; [reflexivity |]. split; [reflexivity |]. split.
  - unfold reduced; simpl. lia.
  - rewrite Point__eq__same_curve by reflexivity. reflexivity.
Qed.

(** ** Every point an operation returns came out of the constructor *)

Lemma from_jacobian_returns (J : jac) (c : Curve.t) (P : Point.t) :
  _from_jacobian J c = Ok P ->
  on_curve P /\ Point.curve P = c /\ (0 < Curve.p c -> reduced P).
Proof.
  destruct J as [[xj yj] zj]. unfold _from_jacobian.
  destruct (zj =? 0).
  - intros H. apply Point__init__on_curve in H.
    destruct H as (Hon & Hc & Hx & Hy). repeat split; try assumption.
    intros _. unfold reduced. rewrite Hx. exact I.
  - intros H. bind_inv H. apply Point__init__on_curve in H.
    destruct H as (Hon & Hc & Hx & Hy).
    split; [assumption |]. split; [assumption |].
    intros Hp. unfold reduced. rewrite Hx, Hy, Hc.
    split; apply Z.mod_pos_bound; assumption.
Qed.

Lemma Point__neg__returns (P R : Point.t) :
  Point__neg__ P = Ok R -> on_curve P ->
  on_curve R /\ Point.curve R = Point.curve P /\
  is_at_infinity R = is_at_infinity P.
Proof.
  unfold Point__neg__. destruct (is_at_infinity P) eqn:Hinf.
  - intros H Hon. injection H as <-. auto.
  - destruct (Point.y P) as [yv |] eqn:Hy; [| discriminate].
    intros H Hon. apply Point__init__on_curve in H.
    destruct H as (HR & Hc & Hx & Hy'). repeat split; try assumption.
    unfold is_at_infinity. rewrite Hy'. destruct (Point.x R); reflexivity.
Qed.

Lemma Point__add__returns (P Q R : Point.t) :
  Point__add__ P Q = Ok R -> on_curve P -> on_curve Q ->
  on_curve R /\
  (is_at_infinity P = false -> is_at_infinity Q = false ->
   Point.curve R = Point.curve P /\
   (0 < Curve.p (Point.curve P) -> reduced R)).
Proof.
  unfold Point__add__. intros H HP HQ. bind_inv H.
  destruct u; simpl in H; [| discriminate].
  destruct (is_at_infinity P).
  { injection H as <-. split; [assumption | discriminate]. }
  destruct (is_at_infinity Q).
  { injection H as <-. split; [assumption | discriminate]. }
  bind_inv H. bind_inv H. bind_inv H.
  apply from_jacobian_returns in H. destruct H as (Hon & Hc & Hred).
  split; [assumption |]. intros _ _. split; assumption.
Qed.

Lemma double_and_add_returns (P R : Point.t) (k : Z) :
  double_and_add P k = Ok R ->
  on_curve R /\ Point.curve R = Point.curve P /\
  (0 < Curve.p (Point.curve P) -> reduced R).
Proof.
  unfold double_and_add. intros H. bind_inv H.
  destruct k as [| kp | kp]; try (apply from_jacobian_returns in H; exact H).
  bind_inv H. apply from_jacobian_returns in H. exact H.
Qed.

Lemma mul_nonneg_returns (P R : Point.t) (k : Z) :
  mul_nonneg P k = Ok R ->
  on_curve R /\ Point.curve R = Point.curve P /\
  (0 < Curve.p (Point.curve P) -> reduced R).
Proof.
  unfold mul_nonneg.
  assert (Hid : forall R', Point__init__ (Point.curve P) None None = Ok R' ->
    on_curve R' /\ Point.curve R' = Point.curve P /\
    (0 < Curve.p (Point.curve P) -> reduced R')).
  { intros R' H. injection H as <-. repeat split. }
  destruct (is_at_infinity P); [apply Hid |].
  intros H. bind_inv H. destruct (u =? 0); [apply Hid; assumption |].
  apply double_and_add_returns in H. exact H.
Qed.

Lemma Point__mul__returns (P R : Point.t) (k : Z) :
  Point__mul__ P k = Ok R -> on_curve P ->
  on_curve R /\ Point.curve R = Point.curve P /\
  (0 < Curve.p (Point.curve P) -> reduced R).
Proof.
  unfold Point__mul__.
  assert (Hid : forall R', Point__init__ (Point.curve P) None None = Ok R' ->
    on_curve R' /\ Point.curve R' = Point.curve P /\
    (0 < Curve.p (Point.curve P) -> reduced R')).
  { intros R' H. injection H as <-. repeat split. }
  destruct (is_at_infinity P); [intros; apply Hid; assumption |].
  intros H Hon. bind_inv H. destruct (u =? 0); [apply Hid; assumption |].
  destruct (k <? 0).
  - bind_inv H. apply Point__neg__returns in Hm0; [| assumption].
    destruct Hm0 as (_ & Hc & _). apply mul_nonneg_returns in H.
    rewrite Hc in H. exact H.
  - apply double_and_add_returns in H. exact H.
Qed.

(** C7, as the code has it.  Whatever the constructor, [Add], [Multiply]
    or [Negate] returns satisfies the congruence
    [y^2 = x^3 + a*x + b (mod p)] (operands of [Add] and [Negate] being
    points that satisfy it).  The coordinates lie in [[0, p)] for the points
    that come out of the conversion from Jacobian coordinates: every result
    of [Multiply], and the result of [Add] when neither operand is the
    identity.  The constructor itself does not look at the range. *)
Theorem finite_points_satisfy_the_equation :
  (forall c x y P, Point__init__ c x y = Ok P -> on_curve P) /\
  (forall P Q R, on_curve P -> on_curve Q -> Point__add__ P Q = Ok R ->
     on_curve R /\
     (is_at_infinity P = false -> is_at_infinity Q = false ->
      0 < Curve.p (Point.curve P) -> reduced R)) /\
  (forall P k R, on_curve P -> Point__mul__ P k = Ok R ->
     on_curve R /\ (0 < Curve.p (Point.curve P) -> reduced R)) /\
  (forall P R, on_curve P -> Point__neg__ P = Ok R -> on_curve R).
Proof.
  split; [| split; [| split]].
  - intros c x y P H. apply Point__init__on_curve in H. tauto.
  - intros P Q R HP HQ H. apply Point__add__returns in H; try assumption.
    destruct H as [Hon Hred]. split; [assumption |].
    intros HiP HiQ Hp. apply Hred; assumption.
  - intros P k R HP H. apply Point__mul__returns in H; try assumption. tauto.
  - intros P R HP H. apply Point__neg__returns in H; try assumption. tauto.
Qed.

(** C7 as stated fails at the constructor: [(5, 0)] passes its test on
    [toy2], whose modulus is 5, and the point built keeps the coordinate 5. *)
Lemma constructor_keeps_unreduced_coordinate :
  Point__init__ toy2 (Some 5) (Some 0) = Ok (finite toy2 5 0) /\
  ~ reduced (finite toy2 5 0).
Proof.
  split; [reflexivity |]. unfold reduced; simpl. lia.
Qed.

(** An instance of the theorem above: the double of the generator of
    [toy19]. *)
Lemma finite_points_satisfy_the_equation_witness :
  on_curve (finite toy19 6 3) /\ reduced (finite toy19 6 3).
Proof.
  destruct finite_points_satisfy_the_equation as (_ & Hadd & _).
  assert (Hg : on_curve (Curve_g toy19)).
  { unfold on_curve; simpl. split; [lia | reflexivity]. }
  destruct (Hadd (Curve_g toy19) (Curve_g toy19) (finite toy19 6 3) Hg Hg)
    as [Hon Hred].
  - vm_compute. reflexivity.
  - split; [exact Hon |]. apply Hred; [reflexivity | reflexivity |].
    simpl. lia.
Defined.

(** ** Nonce derivation and signing: fuel, depth and determinism *)

Lemma h2_loop_mono (fuel fuel' : nat) (k v t : bytes) (n_len : Z)
  (r : bytes * bytes) :
  (fuel <= fuel')%nat ->
  ecdsa.h2_loop fuel k v t n_len = Ok r ->
  ecdsa.h2_loop fuel' k v t n_len = Ok r.
Proof.
  revert fuel' v t. induction fuel as [| f IH]; intros fuel' v t Hle H.
  - destruct fuel'; simpl in *; destruct (len t <? n_len); congruence.
  - destruct fuel' as [| f']; [lia |]. simpl in *.
    destruct (len t <? n_len); [| assumption].
    apply IH; [lia | assumption].
Qed.

Lemma h_loop_mono (fuel fuel' : nat) (k v : bytes) (n n_len r : Z) :
  (fuel <= fuel')%nat ->
  ecdsa.h_loop fuel k v n n_len = Ok r ->
  ecdsa.h_loop fuel' k v n n_len = Ok r.
Proof.
  revert fuel' k v. induction fuel as [| f IH]; intros fuel' k v Hle H;
    [discriminate |].
  destruct fuel' as [| f']; [lia |].
  cbn [ecdsa.h_loop] in *. bind_inv H. destruct u as [v1 t1].
  rewrite (h2_loop_mono (S f) (S f') _ _ _ _ _ Hle Hm). cbn [bind].
  bind_inv H. rewrite Hm0. cbn [bind].
  destruct ((1 <=? u) && (u <? n)); [assumption |].
  apply IH; [lia | assumption].
Qed.

Lemma h_loop_range (fuel : nat) (k v : bytes) (n n_len r : Z) :
  ecdsa.h_loop fuel k v n n_len = Ok r -> 1 <= r < n.
Proof.
  revert k v. induction fuel as [| f IH]; intros k v H; [discriminate |].
  cbn [ecdsa.h_loop] in H. bind_inv H. destruct u as [v1 t1]. bind_inv H.
  destruct ((1 <=? u) && (u <? n)) eqn:E.
  - injection H as <-. apply andb_true_iff in E. lia.
  - eapply IH; eassumption.
Qed.

(** The nonce is in [[1, n-1]] whenever the derivation returns. *)
Lemma rfc6979_k_range (fuel : nat) (d : Z) (h : bytes) (c : Curve.t) (k : Z) :
  ecdsa._rfc6979_k fuel d h c = Ok k -> 1 <= k < Curve.n c.
Proof.
  unfold ecdsa._rfc6979_k. intros H. bind_inv H. bind_inv H.
  eapply h_loop_range; eassumption.
Qed.

Lemma rfc6979_k_mono (fuel fuel' : nat) (d : Z) (h : bytes) (c : Curve.t)
  (k : Z) :
  (fuel <= fuel')%nat ->
  ecdsa._rfc6979_k fuel d h c = Ok k -> ecdsa._rfc6979_k fuel' d h c = Ok k.
Proof.
  unfold ecdsa._rfc6979_k. intros Hle H. bind_inv H. bind_inv H.
  rewrite Hm in Hm0. injection Hm0 as <-.
  rewrite Hm. cbn [bind]. eapply h_loop_mono; eassumption.
Qed.

Lemma rfc6979_k_deterministic (f1 f2 : nat) (d : Z) (h : bytes) (c : Curve.t)
  (k1 k2 : Z) :
  ecdsa._rfc6979_k f1 d h c = Ok k1 -> ecdsa._rfc6979_k f2 d h c = Ok k2 ->
  k1 = k2.
Proof.
  intros H1 H2.
  apply (rfc6979_k_mono f1 (Nat.max f1 f2)) in H1; [| lia].
  apply (rfc6979_k_mono f2 (Nat.max f1 f2)) in H2; [| lia].
  congruence.
Qed.

Lemma sign_message_at_attempt (depth fuel : nat) (d : Z) (m : bytes)
  (c : Curve.t) :
  ecdsa.sign_message_at (S depth) fuel d m c =
  (a <- sign_attempt fuel d m c ;;
   match a with
   | Some sig => Ok sig
   | None => ecdsa.sign_message_at depth fuel d m c
   end).
Proof.
  cbn [ecdsa.sign_message_at]. unfold sign_attempt.
  destruct (ecdsa._rfc6979_k fuel d (sha256 m) c) as [k | |]; cbn [bind];
    try reflexivity.
  destruct (Point__rmul__ (Curve_g c) k) as [R | |]; cbn [bind];
    try reflexivity.
  destruct (Point.x R) as [xr |]; [| reflexivity].
  destruct (mod_guard (Curve.n c) (xr mod Curve.n c)) as [r | |]; cbn [bind];
    try reflexivity.
  destruct (r =? 0); [reflexivity |].
  destruct (pow_inv k (Curve.n c)) as [ki | |]; cbn [bind]; try reflexivity.
  match goal with |- context [if ?t then _ else _] => destruct t end;
    reflexivity.
Qed.

(** The retry passes the arguments it was given, and the nonce is a function
    of them: an attempt that ends in a retry does so at every depth, until
    no frame is left. *)
Lemma sign_message_at_retry (depth fuel : nat) (d : Z) (m : bytes)
  (c : Curve.t) :
  sign_attempt fuel d m c = Ok None ->
  ecdsa.sign_message_at depth fuel d m c = Raise RecursionError.
Proof.
  intros H. induction depth as [| depth IH]; [reflexivity |].
  rewrite sign_message_at_attempt, H. exact IH.
Qed.

Lemma sign_message_at_returns (depth fuel : nat) (d : Z) (m : bytes)
  (c : Curve.t) (sig : Z * Z) :
  ecdsa.sign_message_at depth fuel d m c = Ok sig ->
  sign_attempt fuel d m c = Ok (Some sig).
Proof.
  induction depth as [| depth IH]; [discriminate |].
  rewrite sign_message_at_attempt. intros H. bind_inv H.
  destruct u as [sig' |].
  - congruence.
  - rewrite sign_message_at_retry in H by assumption. discriminate.
Qed.

Lemma sign_attempt_deterministic (f1 f2 : nat) (d : Z) (m : bytes)
  (c : Curve.t) (a1 a2 : option (Z * Z)) :
  sign_attempt f1 d m c = Ok a1 -> sign_attempt f2 d m c = Ok a2 -> a1 = a2.
Proof.
  unfold sign_attempt. intros H1 H2. bind_inv H1. bind_inv H2.
  assert (u = u0) by (eapply rfc6979_k_deterministic; eassumption).
  subst u0. congruence.
Qed.

(** C4. Signing is deterministic: the pair returned depends on the private
    key, the message and the curve only.  Two calls on the same three
    arguments that both return, whatever recursion depth and loop budget
    each was given, return the same pair [(r, s)]. *)
Theorem sign_message_deterministic
  (depth1 depth2 fuel1 fuel2 : nat) (private_key : Z) (message : bytes)
  (curve : Curve.t) (sig1 sig2 : Z * Z) :
  ecdsa.sign_message_at depth1 fuel1 private_key message curve = Ok sig1 ->
  ecdsa.sign_message_at depth2 fuel2 private_key message curve = Ok sig2 ->
  sig1 = sig2.
Proof.
  intros H1 H2. apply sign_message_at_returns in H1, H2.
  pose proof (sign_attempt_deterministic _ _ _ _ _ _ _ H1 H2) as E.
  congruence.
Qed.

(** Signing [b"abc"] with the key 7 on [toy19], under two budgets. *)
Lemma sign_message_deterministic_witness :
  ecdsa.sign_message_at 1 10 7 abc toy19 = Ok (13, 7) /\
  ecdsa.sign_message_at 3 20 7 abc toy19 = Ok (13, 7).
Proof.
  assert (H1 : ecdsa.sign_message_at 1 10 7 abc toy19 = Ok (13, 7))
    by (vm_compute; reflexivity).
  split; [exact H1 |].
  destruct (ecdsa.sign_message_at 3 20 7 abc toy19) as [sig | e |] eqn:H2;
    [| vm_compute in H2; discriminate | vm_compute in H2; discriminate].
  f_equal. symmetry.
  exact (sign_message_deterministic 1 3 10 20 7 abc toy19 (13, 7) sig H1 H2).
Defined.

(** On [toy2] the only nonce is 1, the point [1 * G] is the generator
    [(0, 0)] and [r = 0 mod 2 = 0]: no attempt produces a signature. *)
Lemma sign_attempt_toy2 (fuel : nat) (d : Z) (m : bytes) (a : option (Z * Z)) :
  sign_attempt fuel d m toy2 = Ok a -> a = None.
Proof.
  unfold sign_attempt. intros H. bind_inv H.
  apply rfc6979_k_range in Hm. change (Curve.n toy2) with 2 in Hm.
  assert (u = 1) by lia. subst u.
  change (Point__rmul__ (Curve_g toy2) 1) with (Ok (finite toy2 0 0)) in H.
  cbn in H. congruence.
Qed.

(** C2, at the failing input.  On the curve [toy2] signing never returns a
    signature, for any key and message and however many frames and loop
    rounds it is given: an attempt that reaches [r = 0] calls
    [sign_message] on the same arguments, which derives the same nonce and
    reaches [r = 0] again.  For the key 1 and the empty message the first
    attempt derives the nonce 1 and the call ends in [RecursionError]. *)
Theorem sign_message_retry_never_ends :
  (forall (depth fuel : nat) (d : Z) (m : bytes),
     returned (ecdsa.sign_message_at depth fuel d m toy2) = false) /\
  ecdsa._rfc6979_k 10 1 (sha256 []) toy2 = Ok 1 /\
  ecdsa.sign_message 10 1 [] toy2 = Raise RecursionError.
Proof.
  split; [| split].
  - intros depth fuel d m.
    destruct (ecdsa.sign_message_at depth fuel d m toy2) as [sig | |] eqn:H;
      try reflexivity.
    apply sign_message_at_returns in H. apply sign_attempt_toy2 in H.
    discriminate.
  - vm_compute. reflexivity.
  - apply sign_message_at_retry. vm_compute. reflexivity.
Qed.

(** ** Small primes *)

Lemma is_prime_sound (q : Z) : SHA256.is_prime q = true -> 1 < q -> Z.prime q.
Proof.
  unfold SHA256.is_prime. intros H Hq. split; [assumption |].
  intros d Hd [e He]. rewrite forallb_forall in H.
  specialize (H (Z.to_nat d)).
  rewrite Z2Nat.id in H by lia.
  assert (Hin : In (Z.to_nat d) (seq 2 (Z.to_nat q - 2))).
  { apply in_seq. lia. }
  apply H in Hin. apply negb_true_iff in Hin.
  apply Z.eqb_neq in Hin. apply Hin. subst q. apply Z_mod_mult.
Qed.

Lemma prime_5 : Z.prime 5.
Proof. apply is_prime_sound; [reflexivity | lia]. Qed.

Lemma prime_17 : Z.prime 17.
Proof. apply is_prime_sound; [reflexivity | lia]. Qed.

Lemma prime_19 : Z.prime 19.
Proof. apply is_prime_sound; [reflexivity | lia]. Qed.

(** ** Arithmetic modulo a prime [p], read in the field [Zmod p] *)

Section PrimeField.

Variable c : Curve.t.
Hypothesis Hprime : Z.prime (Curve.p c).

#[local] Instance Fp_domain : Integral_domain (R := Zmod (Curve.p c)) :=
  Integral_domain_Zmod (Curve.p c) Hprime.
#[local] Opaque Zmod.add Zmod.mul Zmod.sub Zmod.opp Zmod.zero Zmod.one
  Zmod.of_Z Zmod.inv.
#[local] Open Scope Zmod_scope.

Lemma p_pos : (1 < Curve.p c)%Z.
Proof. pose proof (Z.prime_ge_2 _ Hprime). lia. Qed.

Lemma fe_mod z : fe c (z mod Curve.p c) = fe c z.
Proof. apply Zmod.of_Z_mod. Qed.

Lemma fe_add u v : fe c (u + v) = fe c u + fe c v.
Proof. apply Zmod.of_Z_add. Qed.

Lemma fe_sub u v : fe c (u - v) = fe c u - fe c v.
Proof. apply Zmod.of_Z_sub. Qed.

Lemma fe_mul u v : fe c (u * v) = fe c u * fe c v.
Proof. apply Zmod.of_Z_mul. Qed.

Lemma fe_0 : fe c 0 = 0.
Proof. apply Zmod.of_Z_0. Qed.

Lemma fe_1 : fe c 1 = 1.
Proof. apply Zmod.of_Z_1. Qed.

Lemma fe_2 : fe c 2 = 1 + 1.
Proof. change 2%Z with (1 + 1)%Z. rewrite fe_add, fe_1. reflexivity. Qed.

Lemma fe_3 : fe c 3 = 1 + 1 + 1.
Proof. change 3%Z with (1 + 1 + 1)%Z. rewrite !fe_add, fe_1. reflexivity. Qed.

Lemma fe_4 : fe c 4 = (1 + 1) * (1 + 1).
Proof. change 4%Z with (2 * 2)%Z. rewrite fe_mul, fe_2. reflexivity. Qed.

Lemma fe_8 : fe c 8 = (1 + 1) * ((1 + 1) * (1 + 1)).
Proof. change 8%Z with (2 * 4)%Z. rewrite fe_mul, fe_2, fe_4. reflexivity. Qed.

Lemma fe_pow2 u : fe c (u ^ 2) = fe c u * fe c u.
Proof. rewrite Z.pow_2_r. apply fe_mul. Qed.

Lemma fe_pow3 u : fe c (u ^ 3) = fe c u * fe c u * fe c u.
Proof.
  replace (u ^ 3)%Z with (u * u * u)%Z by ring. rewrite !fe_mul. reflexivity.
Qed.

Lemma fe_pow4 u : fe c (u ^ 4) = fe c u * fe c u * (fe c u * fe c u).
Proof.
  replace (u ^ 4)%Z with (u * u * (u * u))%Z by ring.
  rewrite !fe_mul. reflexivity.
Qed.

Lemma fe_pow6 u :
  fe c (u ^ 6) = fe c u * fe c u * (fe c u * fe c u) * (fe c u * fe c u).
Proof.
  replace (u ^ 6)%Z with (u * u * (u * u) * (u * u))%Z by ring.
  rewrite !fe_mul. reflexivity.
Qed.

(** [z = 0 (mod p)] is [fe z = 0]. *)
Lemma fe_eq0 z : (z mod Curve.p c = 0)%Z <-> fe c z = 0.
Proof.
  unfold fe. rewrite <- Zmod.of_Z_0, Zmod.of_Z_inj, Zmod_0_l. reflexivity.
Qed.

Lemma fe_eq u v : (u mod Curve.p c = v mod Curve.p c)%Z <-> fe c u = fe c v.
Proof. unfold fe. rewrite Zmod.of_Z_inj. reflexivity. Qed.

(** For a reduced integer the test [z == 0] is the test in the field. *)
Lemma fe_reduced_eq0 z : (0 <= z < Curve.p c)%Z -> (z = 0%Z <-> fe c z = 0).
Proof.
  intros Hz. rewrite <- fe_eq0, Z.mod_small by assumption. reflexivity.
Qed.

(** Pushes [fe] to the leaves of an integer expression. *)
Ltac fe_push :=
  repeat first
    [ rewrite fe_mod | rewrite fe_add | rewrite fe_sub | rewrite fe_mul
    | rewrite fe_pow2 | rewrite fe_pow3 | rewrite fe_pow4 | rewrite fe_pow6
    | rewrite fe_0 | rewrite fe_1 | rewrite fe_2 | rewrite fe_3
    | rewrite fe_4 | rewrite fe_8 ].

Lemma curve_residue_fe x y :
  curve_residue c x y = 0%Z <->
  fe c y * fe c y = fe c x * fe c x * fe c x + fe c (Curve.a c) * fe c x
                    + fe c (Curve.b c).
Proof.
  unfold curve_residue. rewrite fe_eq0. fe_push. split; intros H; nsatz.
Qed.

Lemma jac_on_fe x y z :
  jac_on c (x, y, z) <->
  fe c y * fe c y =
  fe c x * fe c x * fe c x
  + fe c (Curve.a c) * fe c x * (fe c z * fe c z * (fe c z * fe c z))
  + fe c (Curve.b c)
    * (fe c z * fe c z * (fe c z * fe c z) * (fe c z * fe c z)).
Proof.
  unfold jac_on. rewrite fe_eq0. fe_push. split; intros H; nsatz.
Qed.

Lemma jac_ok_identity : jac_ok c (1, 1, 0)%Z.
Proof.
  split; [| simpl; pose proof p_pos; lia].
  apply jac_on_fe. fe_push. nsatz.
Qed.

(** *** The Jacobian formulas keep a triple on the curve *)

Lemma jacobian_double_ok (J : jac) :
  jac_ok c J -> exists J', _jacobian_double J c = Ok J' /\ jac_ok c J'.
Proof.
  destruct J as [[x y] z]. intros [Hon Hz]. unfold _jacobian_double.
  destruct ((y =? 0) || (z =? 0))%Z.
  - eexists; split; [reflexivity | apply jac_ok_identity].
  - rewrite mod_guard_nonzero by (pose proof p_pos; lia).
    eexists; split; [reflexivity |]. split.
    + apply jac_on_fe in Hon. apply jac_on_fe. cbv zeta. fe_push. nsatz.
    + simpl. apply Z.mod_pos_bound. pose proof p_pos; lia.
Qed.

Lemma jacobian_add_ok (J1 J2 : jac) :
  jac_ok c J1 -> jac_ok c J2 ->
  exists J', _jacobian_add J1 J2 c = Ok J' /\ jac_ok c J'.
Proof.
  destruct J1 as [[x1 y1] z1], J2 as [[x2 y2] z2]. intros H1 H2.
  unfold _jacobian_add.
  destruct (z1 =? 0)%Z; [eexists; split; [reflexivity | assumption] |].
  destruct (z2 =? 0)%Z; [eexists; split; [reflexivity | assumption] |].
  rewrite mod_guard_nonzero by (pose proof p_pos; lia). cbn [bind].
  cbv zeta.
  destruct (_ =? 0)%Z.
  - destruct (_ =? 0)%Z.
    + apply jacobian_double_ok. assumption.
    + eexists; split; [reflexivity | apply jac_ok_identity].
  - eexists; split; [reflexivity |]. split.
    + destruct H1 as [H1 _], H2 as [H2 _].
      apply jac_on_fe in H1, H2. apply jac_on_fe. fe_push. nsatz.
    + simpl. apply Z.mod_pos_bound. pose proof p_pos; lia.
Qed.

Lemma mul_loop_ok (k : positive) (R C : jac) :
  jac_ok c R -> jac_ok c C ->
  exists R', mul_loop k R C c = Ok R' /\ jac_ok c R'.
Proof.
  revert R C. induction k as [k IH | k IH |]; intros R C HR HC; simpl.
  - destruct (jacobian_add_ok R C HR HC) as (R1 & -> & HR1).
    destruct (jacobian_double_ok C HC) as (C1 & -> & HC1).
    cbn [bind]. apply IH; assumption.
  - destruct (jacobian_double_ok C HC) as (C1 & -> & HC1).
    cbn [bind]. apply IH; assumption.
  - destruct (jacobian_add_ok R C HR HC) as (R1 & -> & HR1).
    destruct (jacobian_double_ok C HC) as (C1 & -> & HC1).
    cbn [bind]. eexists; split; [reflexivity | assumption].
Qed.

(** *** Back to affine coordinates *)

Lemma pow_inv_prime (z : Z) :
  (0 < z < Curve.p c)%Z ->
  exists zi, pow_inv z (Curve.p c) = Ok zi /\ fe c zi * fe c z = 1.
Proof.
  intros Hz. unfold pow_inv.
  destruct (Z.eqb_spec (Curve.p c) 0) as [E | _]; [lia |].
  assert (Hg : Z.gcd z (Curve.p c) = 1%Z).
  { rewrite Z.gcd_comm. apply Z.coprime_prime_small; [assumption | lia]. }
  rewrite Hg. simpl. eexists; split; [reflexivity |].
  rewrite <- fe_mul, <- fe_1. apply fe_eq.
  apply Z.invmod_coprime'. exact Hg.
Qed.

Lemma from_jacobian_ok (J : jac) :
  jac_ok c J -> exists P, _from_jacobian J c = Ok P.
Proof.
  destruct J as [[x y] z]. intros [Hon Hz]. simpl in Hz.
  unfold _from_jacobian.
  destruct (Z.eqb_spec z 0) as [E | E]; [eexists; reflexivity |].
  destruct (pow_inv_prime z) as (zi & -> & Hzi); [lia |]. cbn [bind].
  eexists. apply Point__init__accepts; [pose proof p_pos; lia |].
  apply curve_residue_fe. apply jac_on_fe in Hon. fe_push. nsatz.
Qed.

Lemma to_jacobian_ok (P : Point.t) :
  Point.curve P = c -> on_curve P ->
  exists J, _to_jacobian P = Ok J /\ jac_ok c J.
Proof.
  intros Hc Hon. unfold _to_jacobian, on_curve in *.
  destruct (Point.x P) as [xv |], (Point.y P) as [yv |]; try contradiction.
  - eexists; split; [reflexivity |]. split.
    + rewrite Hc in Hon. destruct Hon as [_ Hr].
      apply curve_residue_fe in Hr. apply jac_on_fe. fe_push. nsatz.
    + simpl. pose proof p_pos. lia.
  - eexists; split; [reflexivity | apply jac_ok_identity].
Qed.

(** *** Addition and multiplication of points return *)

Lemma Point__add__ok (P Q : Point.t) :
  Point.curve P = c -> Point.curve Q = c -> on_curve P -> on_curve Q ->
  exists R, Point__add__ P Q = Ok R.
Proof.
  intros HcP HcQ HP HQ. unfold Point__add__.
  rewrite HcP, HcQ, Curve__eq__same_object. cbn [bind negb].
  destruct (is_at_infinity P); [eexists; reflexivity |].
  destruct (is_at_infinity Q); [eexists; reflexivity |].
  destruct (to_jacobian_ok P HcP HP) as (JP & -> & HJP).
  destruct (to_jacobian_ok Q HcQ HQ) as (JQ & -> & HJQ). cbn [bind].
  destruct (jacobian_add_ok JP JQ HJP HJQ) as (JR & -> & HJR). cbn [bind].
  apply from_jacobian_ok. assumption.
Qed.

Lemma double_and_add_ok (P : Point.t) (k : Z) :
  Point.curve P = c -> on_curve P -> exists R, double_and_add P k = Ok R.
Proof.
  intros Hc HP. unfold double_and_add.
  destruct (to_jacobian_ok P Hc HP) as (JP & -> & HJP). cbn [bind].
  rewrite Hc.
  destruct k as [| kp | kp]; try (apply from_jacobian_ok, jac_ok_identity).
  destruct (mul_loop_ok kp _ _ jac_ok_identity HJP) as (JR & -> & HJR).
  cbn [bind]. apply from_jacobian_ok. assumption.
Qed.

Lemma Point__mul__ok (P : Point.t) (k : Z) :
  Point.curve P = c -> on_curve P -> Curve.n c <> 0%Z ->
  exists R, Point__mul__ P k = Ok R.
Proof.
  intros Hc HP Hn. unfold Point__mul__.
  destruct (is_at_infinity P) eqn:Hinf; [eexists; reflexivity |].
  rewrite Hc, mod_guard_nonzero by assumption. cbn [bind].
  destruct (_ =? 0)%Z; [eexists; reflexivity |].
  destruct (k <? 0)%Z; [| apply double_and_add_ok; assumption].
  destruct (Point__neg__ P) as [N | e |] eqn:HN.
  - cbn [bind]. apply Point__neg__returns in HN; [| assumption].
    destruct HN as (HonN & HcN & HinfN). unfold mul_nonneg.
    rewrite HinfN, Hinf, HcN, Hc, mod_guard_nonzero by assumption.
    cbn [bind]. destruct (_ =? 0)%Z; [eexists; reflexivity |].
    apply double_and_add_ok; [congruence | assumption].
  - exfalso. unfold Point__neg__ in HN. rewrite Hinf in HN.
    unfold on_curve, is_at_infinity in *.
    destruct (Point.x P) as [xv |], (Point.y P) as [yv |];
      try contradiction; try discriminate.
    rewrite Hc in *. destruct HP as [Hp Hr].
    rewrite Point__init__accepts in HN; [discriminate | assumption |].
    rewrite curve_residue_neg. assumption.
  - exfalso. unfold Point__neg__ in HN. rewrite Hinf in HN.
    unfold on_curve, is_at_infinity in *.
    destruct (Point.x P) as [xv |], (Point.y P) as [yv |];
      try contradiction; try discriminate.
    rewrite Hc in *. destruct HP as [Hp Hr].
    rewrite Point__init__accepts in HN; [discriminate | assumption |].
    rewrite curve_residue_neg. assumption.
Qed.

(** *** The field [Zmod p] for a prime [p > 3] *)

Hypothesis Hp3 : (3 < Curve.p c)%Z.

#[local] Abbreviation p := (Curve.p c).

Lemma two_nz : two <> 0 :> Zmod p.
Proof.
  unfold two. rewrite <- Zmod.of_Z_1, <- Zmod.of_Z_add, <- Zmod.of_Z_0.
  rewrite Zmod.of_Z_inj. rewrite !Z.mod_small by lia. lia.
Qed.

Lemma three_nz : three <> 0 :> Zmod p.
Proof.
  unfold three. rewrite <- Zmod.of_Z_1, <- !Zmod.of_Z_add, <- Zmod.of_Z_0.
  rewrite Zmod.of_Z_inj. rewrite !Z.mod_small by lia. lia.
Qed.

Lemma mul_nz (u v : Zmod p) : u <> 0 -> v <> 0 -> u * v <> 0.
Proof.
  intros Hu Hv H. apply Zmod.mul_0_iff_prime in H; [tauto | exact Hprime].
Qed.

Lemma inv_r (u : Zmod p) : u <> 0 -> u * Zmod.inv u = 1.
Proof. intros. apply Zmod.mul_inv_same_r_prime; assumption. Qed.

Lemma neq_witness (u v : Zmod p) : u <> v -> exists i, (u - v) * i = 1.
Proof.
  intros H. exists (Zmod.inv (u - v)). apply inv_r.
  intros E. apply H. nsatz.
Qed.

Lemma zconst_1 : zconst 1%Z <> 0 :> Zmod p.
Proof.
  unfold zconst; simpl.
  apply (@integral_domain_one_zero _ _ _ _ _ _ _ _ _ _ _ Fp_domain).
Qed.

Lemma zconst_opp z : zconst z <> 0 :> Zmod p -> zconst (- z)%Z <> 0 :> Zmod p.
Proof.
  unfold zconst. intros H E. apply H.
  pose proof (Ncring_initial.gen_phiZ_opp (R:=Zmod p) z) as Ho.
  rewrite E in Ho. cbv [equality] in Ho. nsatz.
Qed.

Lemma zconst_2 z : zconst z <> 0 :> Zmod p -> zconst (2 * z)%Z <> 0 :> Zmod p.
Proof.
  unfold zconst. intros H.
  pose proof (Ncring_initial.gen_phiZ_mul (R:=Zmod p) 2 z) as Hm.
  cbv [equality multiplication mul_notation] in Hm. rewrite Hm.
  apply mul_nz; [exact two_nz | exact H].
Qed.

Lemma zconst_3 z : zconst z <> 0 :> Zmod p -> zconst (3 * z)%Z <> 0 :> Zmod p.
Proof.
  unfold zconst. intros H.
  pose proof (Ncring_initial.gen_phiZ_mul (R:=Zmod p) 3 z) as Hm.
  cbv [equality multiplication mul_notation] in Hm. rewrite Hm.
  apply mul_nz; [| exact H].
  pose proof three_nz as T. intros E. apply T. unfold three. simpl in E. nsatz.
Qed.

(** The side conditions [k <> 0] that [nsatz] leaves for integer constants
    [k = +- 2^i 3^j]. *)
Ltac zconst_nz :=
  lazymatch goal with
  | |- ~ (interpret3 (PEc ?z) _ == _) => change (@zconst p z <> 0)
  | |- zconst _ <> 0 => idtac
  end;
  repeat lazymatch goal with
  | |- zconst 1%Z <> 0 => exact zconst_1
  | |- zconst (Zneg ?z) <> 0 =>
      change (@zconst p (- (Zpos z))%Z <> 0); apply zconst_opp
  | |- zconst ?z <> 0 =>
      let r2 := eval vm_compute in (z mod 2)%Z in
      lazymatch r2 with
      | 0%Z => let z' := eval vm_compute in (z / 2)%Z in
               change (@zconst p (2 * z')%Z <> 0); apply zconst_2
      | _ => let z' := eval vm_compute in (z / 3)%Z in
             change (@zconst p (3 * z')%Z <> 0); apply zconst_3
      end
  end.

Ltac fnsatz := solve [nsatz; try zconst_nz].

Ltac witnesses :=
  repeat match goal with
  | H : ?u <> ?v |- _ =>
      apply neq_witness in H; let i := fresh "i" in destruct H as [i H]
  end.

Ltac fsatz :=
  witnesses;
  lazymatch goal with
  | |- False =>
      exfalso;
      apply (@integral_domain_one_zero _ _ _ _ _ _ _ _ _ _ _ Fp_domain);
      cbv [equality]; fnsatz
  | |- _ = _ => fnsatz
  end.

(** *** The group law: the chord-and-tangent sum is associative *)

Section GroupLaw.

Variables a b : Zmod p.
Hypothesis Hdisc : two * two * a * a * a + three * three * three * b * b <> 0.

Lemma chord_on (l x1 y1 x2 y2 : Zmod p) :
  a_on a b (Some (x1, y1)) -> a_on a b (Some (x2, y2)) ->
  x1 <> x2 -> l * (x2 - x1) = y2 - y1 ->
  a_on a b (chord l x1 y1 x2).
Proof.
  unfold a_on, chord. intros H1 H2 Hx Hl. clear Hdisc. fsatz.
Qed.

Lemma tangent_on (l x1 y1 : Zmod p) :
  a_on a b (Some (x1, y1)) ->
  y1 <> 0 -> l * (two * y1) = three * x1 * x1 + a ->
  a_on a b (chord l x1 y1 x1).
Proof.
  unfold a_on, chord, two, three. intros H1 Hy Hl. clear Hdisc. fsatz.
Qed.

Lemma add_cases (x1 y1 x2 y2 : Zmod p) :
  a_on a b (Some (x1, y1)) -> a_on a b (Some (x2, y2)) ->
  add_case a x1 y1 x2 y2 (a_add a (Some (x1, y1)) (Some (x2, y2))).
Proof.
  unfold a_on, a_add. intros H1 H2. clear Hdisc.
  destruct (Zmod.eqb_spec x1 x2) as [Ex | Ex].
  - destruct (Zmod.eqb_spec y1 y2) as [Ey | Ey]; simpl.
    + destruct (Zmod.eqb_spec y1 0) as [E0 | E0]; simpl.
      * apply AddOpp; [assumption |]. subst. fnsatz.
      * apply AddTangent; try assumption. unfold fdiv.
        assert (N : two * y1 <> 0) by (apply mul_nz; [apply two_nz | assumption]).
        pose proof (inv_r _ N) as Hi. revert Hi. generalize (Zmod.inv (two * y1)).
        intros i Hi. fnsatz.
    + apply AddOpp; [assumption |]. subst x2. fsatz.
  - apply AddChord; [assumption |]. unfold fdiv.
    assert (N : x2 - x1 <> 0) by (intros E; apply Ex; fnsatz).
    pose proof (inv_r _ N) as Hi. revert Hi. generalize (Zmod.inv (x2 - x1)).
    intros i Hi. fnsatz.
Qed.

Lemma a_add_on (P Q : apoint p) :
  a_on a b P -> a_on a b Q -> a_on a b (a_add a P Q).
Proof.
  destruct P as [[x1 y1] |], Q as [[x2 y2] |]; try (simpl; auto; fail).
  intros H1 H2. destruct (add_cases x1 y1 x2 y2 H1 H2).
  - eapply chord_on; eauto.
  - subst x2. eapply tangent_on; eauto.
  - exact I.
Qed.

Lemma a_neg_on (P : apoint p) : a_on a b P -> a_on a b (a_neg P).
Proof.
  destruct P as [[x y] |]; simpl; [| auto]. intros H. clear Hdisc. fnsatz.
Qed.

Lemma a_neg_neg (P : apoint p) : a_neg (a_neg P) = P.
Proof.
  destruct P as [[x y] |]; simpl; [| reflexivity].
  f_equal; f_equal. clear Hdisc. fnsatz.
Qed.

Lemma a_add_0_l (P : apoint p) : a_add a None P = P.
Proof. reflexivity. Qed.

Lemma a_add_0_r (P : apoint p) : a_add a P None = P.
Proof. destruct P as [[x y] |]; reflexivity. Qed.

(* Solves a goal by destructing the sums of finite points it mentions. *)
Ltac split_sums :=
  repeat match goal with
  | |- context [a_add a (Some (?u, ?v)) (Some (?w, ?z))] =>
      let C := fresh "C" in
      assert (C : add_case a u v w z (a_add a (Some (u, v)) (Some (w, z))))
        by (apply add_cases; assumption);
      destruct C
  end.

Lemma a_add_comm (P Q : apoint p) :
  a_on a b P -> a_on a b Q -> a_add a P Q = a_add a Q P.
Proof.
  destruct P as [[x1 y1] |], Q as [[x2 y2] |]; try reflexivity.
  intros H1 H2. split_sums; unfold chord, a_on, two, three in *; clear Hdisc;
    try reflexivity; try (f_equal; f_equal; fsatz); try (exfalso; fsatz).
Qed.

Lemma a_add_neg_r (P : apoint p) : a_on a b P -> a_add a P (a_neg P) = None.
Proof.
  destruct P as [[x y] |]; [| reflexivity]. intros H.
  pose proof (a_neg_on _ H) as H'. simpl in H'. simpl a_neg.
  split_sums; unfold chord, a_on, two, three in *; clear Hdisc;
    try reflexivity; exfalso.
  - congruence.
  - fsatz.
Qed.

Lemma a_neg_add (P Q : apoint p) :
  a_on a b P -> a_on a b Q ->
  a_neg (a_add a P Q) = a_add a (a_neg P) (a_neg Q).
Proof.
  destruct P as [[x1 y1] |], Q as [[x2 y2] |]; try reflexivity.
  intros H1 H2.
  pose proof (a_neg_on _ H1) as H1'. pose proof (a_neg_on _ H2) as H2'.
  simpl in H1', H2'. simpl (a_neg (Some _)).
  split_sums; unfold chord, a_neg, a_on, two, three in *; clear Hdisc;
    try reflexivity; try (f_equal; f_equal; fsatz); try (exfalso; fsatz).
Qed.

(* a sum that is the identity *)
Lemma a_add_eq_zero (P Q : apoint p) :
  a_on a b P -> a_on a b Q -> a_add a P Q = None -> Q = a_neg P.
Proof.
  destruct P as [[x1 y1] |], Q as [[x2 y2] |]; try (simpl; congruence).
  intros H1 H2. split_sums; unfold chord; try discriminate.
  intros _. simpl. subst. reflexivity.
Qed.


Ltac leaf :=
  unfold chord, a_neg, a_on, two, three in *;
  first
    [ reflexivity
    | congruence
    | exfalso; congruence
    | clear Hdisc; f_equal; f_equal; fsatz
    | clear Hdisc; exfalso; fsatz
    | exfalso; fsatz ].

Ltac split_all := repeat (unfold chord in *; split_sums).

Lemma a_add_cancel (P Q : apoint p) :
  a_on a b P -> a_on a b Q -> a_add a (a_add a P Q) (a_neg Q) = P.
Proof.
  destruct P as [[x1 y1] |], Q as [[x2 y2] |]; intros H1 H2.
  - pose proof (a_neg_on _ H2) as H2'. simpl in H2'. simpl (a_neg (Some _)).
    pose proof (a_add_on _ _ H1 H2) as H12.
    destruct (add_cases x1 y1 x2 y2 H1 H2); unfold chord in *.
    + split_sums; leaf.
    + split_sums; leaf.
    + simpl. f_equal. f_equal; subst; clear Hdisc; unfold a_on in *; fsatz.
  - simpl. reflexivity.
  - change (a_add a (Some (x2, y2)) (a_neg (Some (x2, y2))) = None).
    apply a_add_neg_r. assumption.
  - reflexivity.
Qed.

Lemma apoint_eq_cases (P Q : apoint p) : P = Q \/ P <> Q.
Proof.
  destruct P as [[x1 y1] |], Q as [[x2 y2] |];
    try (right; discriminate); try (left; reflexivity).
  destruct (Zmod.eqb_spec x1 x2) as [-> | Nx];
    [| right; intros E; injection E; intros; contradiction].
  destruct (Zmod.eqb_spec y1 y2) as [-> | Ny];
    [left; reflexivity | right; intros E; injection E; intros; contradiction].
Qed.

Lemma a_add_cancel_l (P Q R : apoint p) :
  a_on a b P -> a_on a b Q -> a_on a b R ->
  a_add a P Q = a_add a P R -> Q = R.
Proof.
  intros HP HQ HR E.
  rewrite <- (a_add_cancel Q P), <- (a_add_cancel R P) by assumption.
  rewrite (a_add_comm Q P), (a_add_comm R P), E by assumption. reflexivity.
Qed.

Lemma a_add_eq_self (P R : apoint p) :
  a_on a b P -> a_on a b R -> a_add a P R = P -> R = None.
Proof.
  intros HP HR E. apply (a_add_cancel_l P); try assumption; [exact I |].
  rewrite a_add_0_r. assumption.
Qed.

(* the generic case *)
Lemma assoc_G (P Q R : apoint p) :
  a_on a b P -> a_on a b Q -> a_on a b R ->
  P <> None -> Q <> None -> R <> None ->
  Q <> P -> Q <> a_neg P -> R <> Q -> R <> a_neg Q ->
  a_add a P Q <> R -> a_add a P Q <> a_neg R ->
  a_add a Q R <> P -> a_add a Q R <> a_neg P ->
  a_add a (a_add a P Q) R = a_add a P (a_add a Q R).
Proof.
  destruct P as [[x1 y1] |], Q as [[x2 y2] |], R as [[x3 y3] |];
    try congruence.
  intros H1 H2 H3 _ _ _ N1 N1' N2 N2' N3 N3' N4 N4'.
  pose proof (a_add_on _ _ H1 H2) as H12.
  pose proof (a_add_on _ _ H2 H3) as H23.
  simpl a_neg in *.
  destruct (add_cases x1 y1 x2 y2 H1 H2);
    [| exfalso; subst; congruence | exfalso; subst; congruence].
  destruct (add_cases x2 y2 x3 y3 H2 H3);
    [| exfalso; subst; congruence | exfalso; subst; congruence].
  split_all; leaf.
Qed.

(* P = Q *)
Lemma assoc_G2 (P R : apoint p) :
  a_on a b P -> a_on a b R ->
  P <> None -> R <> None ->
  P <> a_neg P -> R <> P -> R <> a_neg P ->
  a_add a P P <> R -> a_add a P P <> a_neg R ->
  a_add a P R <> P -> a_add a P R <> a_neg P ->
  a_add a (a_add a P P) R = a_add a P (a_add a P R).
Proof.
  destruct P as [[x1 y1] |], R as [[x3 y3] |]; try congruence.
  intros H1 H3 _ _ N1 N2 N2' N3 N3' N4 N4'.
  pose proof (a_add_on _ _ H1 H1) as H12.
  pose proof (a_add_on _ _ H1 H3) as H23.
  simpl a_neg in *.
  destruct (add_cases x1 y1 x1 y1 H1 H1);
    [exfalso; congruence | | exfalso; subst; congruence].
  destruct (add_cases x1 y1 x3 y3 H1 H3);
    [| exfalso; subst; congruence | exfalso; subst; congruence].
  split_all; leaf.
Qed.

(* P = Q and R = 2P *)
Lemma assoc_G3 (P : apoint p) :
  a_on a b P -> P <> None -> P <> a_neg P ->
  a_add a P P <> P -> a_add a P P <> a_neg P ->
  a_add a P P <> a_neg (a_add a P P) ->
  a_add a P (a_add a P P) <> P -> a_add a P (a_add a P P) <> a_neg P ->
  a_add a (a_add a P P) (a_add a P P) = a_add a P (a_add a P (a_add a P P)).
Proof.
  destruct P as [[x1 y1] |]; try congruence.
  intros H1 _ N1 N2 N2' N3 N4 N4'.
  pose proof (a_add_on _ _ H1 H1) as H12.
  simpl a_neg in *.
  destruct (add_cases x1 y1 x1 y1 H1 H1);
    [exfalso; congruence | | exfalso; subst; congruence].
  unfold chord in *. simpl a_neg in *.
  match type of H12 with a_on _ _ (Some (?u, ?v)) =>
    pose proof (a_add_on _ _ H1 H12) as H23;
    destruct (add_cases x1 y1 u v H1 H12);
      [| exfalso; subst; congruence | exfalso; subst; congruence ]
  end.
  split_all; leaf.
Qed.

(* R = P + Q *)
Lemma assoc_G4 (P Q : apoint p) :
  a_on a b P -> a_on a b Q -> P <> None -> Q <> None ->
  Q <> P -> Q <> a_neg P ->
  a_add a P Q <> Q -> a_add a P Q <> a_neg Q ->
  a_add a P Q <> a_neg (a_add a P Q) ->
  a_add a Q (a_add a P Q) <> P -> a_add a Q (a_add a P Q) <> a_neg P ->
  a_add a (a_add a P Q) (a_add a P Q) = a_add a P (a_add a Q (a_add a P Q)).
Proof.
  destruct P as [[x1 y1] |], Q as [[x2 y2] |]; try congruence.
  intros H1 H2 _ _ N1 N1' N2 N2' N3 N4 N4'.
  pose proof (a_add_on _ _ H1 H2) as H12.
  simpl a_neg in *.
  destruct (add_cases x1 y1 x2 y2 H1 H2);
    [| exfalso; subst; congruence | exfalso; subst; congruence].
  unfold chord in *. simpl a_neg in *.
  match type of H12 with a_on _ _ (Some (?u, ?v)) =>
    pose proof (a_add_on _ _ H2 H12) as H23;
    destruct (add_cases x2 y2 u v H2 H12);
      [| exfalso; subst; congruence | exfalso; subst; congruence ]
  end.
  split_all; leaf.
Qed.

(* R = P + Q and P = Q + R *)
Lemma assoc_G5 (P Q : apoint p) :
  a_on a b P -> a_on a b Q -> P <> None -> Q <> None ->
  Q <> P -> Q <> a_neg P ->
  a_add a P Q <> Q -> a_add a P Q <> a_neg Q ->
  a_add a P Q <> a_neg (a_add a P Q) ->
  a_add a Q (a_add a P Q) = P -> P <> a_neg P ->
  a_add a (a_add a P Q) (a_add a P Q) = a_add a P P.
Proof.
  destruct P as [[x1 y1] |], Q as [[x2 y2] |]; try congruence.
  intros H1 H2 _ _ N1 N1' N2 N2' N3 E N5.
  pose proof (a_add_on _ _ H1 H2) as H12.
  simpl a_neg in *.
  destruct (add_cases x1 y1 x2 y2 H1 H2);
    [| exfalso; subst; congruence | exfalso; subst; congruence].
  unfold chord in *. simpl a_neg in *.
  match type of H12 with a_on _ _ (Some (?u, ?v)) =>
    destruct (add_cases x2 y2 u v H2 H12);
      [| exfalso; subst; congruence | exfalso; subst; congruence ]
  end.
  unfold chord in E. injection E as Ex Ey.
  split_all; leaf.
Qed.

Lemma a_add_neg_l (P : apoint p) : a_on a b P -> a_add a (a_neg P) P = None.
Proof.
  intros H. rewrite a_add_comm by auto using a_neg_on. apply a_add_neg_r. assumption.
Qed.

Lemma a_add_cancel' (P Q : apoint p) :
  a_on a b P -> a_on a b Q -> a_add a (a_add a P (a_neg Q)) Q = P.
Proof.
  intros HP HQ. rewrite <- (a_neg_neg Q) at 2.
  apply a_add_cancel; auto using a_neg_on.
Qed.

Lemma assoc_flip (P Q R : apoint p) :
  a_on a b P -> a_on a b Q -> a_on a b R ->
  a_add a (a_add a R Q) P = a_add a R (a_add a Q P) ->
  a_add a (a_add a P Q) R = a_add a P (a_add a Q R).
Proof.
  intros HP HQ HR E.
  rewrite (a_add_comm (a_add a P Q) R), (a_add_comm P Q) by auto using a_add_on.
  rewrite <- E.
  rewrite (a_add_comm (a_add a R Q) P), (a_add_comm R Q) by auto using a_add_on.
  reflexivity.
Qed.

Lemma assoc_half (P Q R : apoint p) :
  a_on a b P -> a_on a b Q -> a_on a b R ->
  Q = P \/ a_add a P Q = R \/ (R <> Q /\ a_add a Q R <> P) ->
  a_add a (a_add a P Q) R = a_add a P (a_add a Q R).
Proof.
  intros HP HQ HR Hcase.
  destruct (apoint_eq_cases P None) as [-> | NP]; [reflexivity |].
  destruct (apoint_eq_cases Q None) as [-> | NQ];
    [rewrite a_add_0_r; reflexivity |].
  destruct (apoint_eq_cases R None) as [-> | NR];
    [rewrite !a_add_0_r; reflexivity |].
  destruct (apoint_eq_cases Q (a_neg P)) as [-> | Nb].
  { rewrite a_add_neg_r by assumption. rewrite a_add_0_l.
    rewrite (a_add_comm (a_neg P) R), (a_add_comm P) by auto using a_neg_on, a_add_on.
    symmetry. apply a_add_cancel'; assumption. }
  destruct (apoint_eq_cases R (a_neg Q)) as [-> | Nc].
  { rewrite a_add_cancel, a_add_neg_r, a_add_0_r by assumption. reflexivity. }
  destruct (apoint_eq_cases (a_add a P Q) (a_neg R)) as [Ed | Nd].
  { rewrite Ed, a_add_neg_l by assumption.
    assert (ER : R = a_add a (a_neg P) (a_neg Q)).
    { rewrite <- a_neg_add, Ed, a_neg_neg by assumption. reflexivity. }
    assert (EQR : a_add a Q R = a_neg P).
    { rewrite ER. rewrite a_add_comm by auto using a_neg_on, a_add_on.
      apply a_add_cancel'; auto using a_neg_on. }
    rewrite EQR, a_add_neg_r by assumption. reflexivity. }
  destruct (apoint_eq_cases (a_add a Q R) (a_neg P)) as [Ee | Ne].
  { rewrite Ee, a_add_neg_r by assumption.
    assert (EP : P = a_add a (a_neg R) (a_neg Q)).
    { rewrite a_add_comm by auto using a_neg_on.
      rewrite <- a_neg_add, Ee, a_neg_neg by assumption. reflexivity. }
    assert (EPQ : a_add a P Q = a_neg R).
    { rewrite EP. apply a_add_cancel'; auto using a_neg_on. }
    rewrite EPQ, a_add_neg_l by assumption. reflexivity. }
  assert (NB : Q = P -> a_add a P R <> P).
  { intros _ E. apply NR. apply (a_add_eq_self P R); assumption. }
  assert (NA : a_add a P Q <> Q).
  { intros E. apply NP. rewrite a_add_comm in E by assumption.
    apply (a_add_eq_self Q P); assumption. }
  destruct (apoint_eq_cases Q P) as [-> | N1].
  - (* the first sum is a doubling *)
    destruct (apoint_eq_cases R P) as [-> | N2].
    { apply a_add_comm; auto using a_add_on. }
    destruct (apoint_eq_cases (a_add a P P) R) as [<- | N3].
    + apply assoc_G3; auto; congruence.
    + apply assoc_G2; auto; congruence.
  - destruct (apoint_eq_cases (a_add a P Q) R) as [<- | N3].
    + (* the second sum is a doubling *)
      destruct (apoint_eq_cases (a_add a Q (a_add a P Q)) P) as [E4 | N4].
      * rewrite E4. apply assoc_G5; auto; congruence.
      * apply assoc_G4; auto; congruence.
    + destruct Hcase as [E | [E | [N2 N4]]]; try congruence.
      apply assoc_G; auto; congruence.
Qed.

Theorem a_add_assoc (P Q R : apoint p) :
  a_on a b P -> a_on a b Q -> a_on a b R ->
  a_add a (a_add a P Q) R = a_add a P (a_add a Q R).
Proof.
  intros HP HQ HR.
  destruct (apoint_eq_cases Q P) as [E1 | N1];
    [apply assoc_half; auto |].
  destruct (apoint_eq_cases (a_add a P Q) R) as [E3 | N3];
    [apply assoc_half; auto |].
  destruct (apoint_eq_cases R Q) as [E2 | N2].
  { apply assoc_flip; try assumption. apply assoc_half; auto. }
  destruct (apoint_eq_cases (a_add a Q R) P) as [E4 | N4].
  { apply assoc_flip; try assumption. apply assoc_half; auto.
    right; left. rewrite a_add_comm; assumption. }
  apply assoc_half; auto.
Qed.

(** *** Multiples *)

Lemma a_mul_nat_on (k : nat) (P : apoint p) :
  a_on a b P -> a_on a b (a_mul_nat a k P).
Proof.
  intros HP. induction k as [| k IH]; simpl; [exact I |].
  apply a_add_on; assumption.
Qed.

Lemma a_mul_nat_identity (k : nat) : a_mul_nat a k None = None :> apoint p.
Proof. induction k as [| k IH]; simpl; [reflexivity | exact IH]. Qed.

Lemma a_mul_nat_1 (P : apoint p) : a_mul_nat a 1 P = P.
Proof. simpl. apply a_add_0_r. Qed.

Lemma a_mul_nat_add (m n : nat) (P : apoint p) :
  a_on a b P ->
  a_mul_nat a (m + n) P = a_add a (a_mul_nat a m P) (a_mul_nat a n P).
Proof.
  intros HP. induction m as [| m IH]; simpl; [reflexivity |].
  rewrite IH. symmetry. apply a_add_assoc; auto using a_mul_nat_on.
Qed.

Lemma a_mul_nat_mul (m n : nat) (P : apoint p) :
  a_on a b P ->
  a_mul_nat a (m * n) P = a_mul_nat a m (a_mul_nat a n P).
Proof.
  intros HP. induction m as [| m IH]; simpl; [reflexivity |].
  rewrite a_mul_nat_add, IH by assumption. reflexivity.
Qed.

Lemma a_mul_nat_neg (k : nat) (P : apoint p) :
  a_on a b P -> a_mul_nat a k (a_neg P) = a_neg (a_mul_nat a k P).
Proof.
  intros HP. induction k as [| k IH]; simpl; [reflexivity |].
  rewrite IH. symmetry. apply a_neg_add; auto using a_mul_nat_on.
Qed.

Lemma a_mul_nat_double (k : nat) (P : apoint p) :
  a_on a b P -> a_mul_nat a k (a_add a P P) = a_mul_nat a (2 * k) P.
Proof.
  intros HP. rewrite (Nat.mul_comm 2 k), a_mul_nat_mul by assumption.
  simpl. rewrite a_add_0_r. reflexivity.
Qed.

(** A multiple of a scalar that kills [P] kills [P]. *)
Lemma a_mul_nat_order (n q : nat) (P : apoint p) :
  a_on a b P -> a_mul_nat a n P = None -> a_mul_nat a (q * n) P = None.
Proof.
  intros HP Hn. rewrite a_mul_nat_mul, Hn by assumption.
  apply a_mul_nat_identity.
Qed.

Lemma a_mul_nat_mod (n k : nat) (P : apoint p) :
  a_on a b P -> n <> 0%nat -> a_mul_nat a n P = None ->
  a_mul_nat a (k mod n) P = a_mul_nat a k P.
Proof.
  intros HP Hn0 Hn.
  rewrite (Nat.div_mod_eq k n) at 2.
  rewrite a_mul_nat_add, (Nat.mul_comm n), a_mul_nat_order, a_add_0_l by assumption.
  reflexivity.
Qed.

(** The multiple by [n - k] is the inverse of the multiple by [k]. *)
Lemma a_mul_nat_compl (n k : nat) (P : apoint p) :
  a_on a b P -> (k <= n)%nat -> a_mul_nat a n P = None ->
  a_mul_nat a (n - k) P = a_neg (a_mul_nat a k P).
Proof.
  intros HP Hk Hn.
  apply a_add_eq_zero; auto using a_mul_nat_on.
  rewrite <- a_mul_nat_add by assumption.
  replace (k + (n - k))%nat with n by lia. assumption.
Qed.

End GroupLaw.

(** *** The Jacobian formulas compute the chord-and-tangent law *)

#[local] Abbreviation ca := (fe c (Curve.a c)).
#[local] Abbreviation cb := (fe c (Curve.b c)).

Lemma inv_l (u : Zmod p) : u <> 0 -> Zmod.inv u * u = 1.
Proof. intros H. pose proof (inv_r u H). nsatz. Qed.

Lemma fe_nonzero (z : Z) : (0 <= z < p)%Z -> z <> 0%Z -> fe c z <> 0.
Proof. intros Hz Hn E. apply Hn. apply fe_reduced_eq0; assumption. Qed.

Lemma a_add_self_opp (a u v : Zmod p) :
  v = 0 -> a_add a (Some (u, v)) (Some (u, v)) = None.
Proof.
  intros ->. unfold a_add.
  destruct (Zmod.eqb_spec u u) as [_ | N]; [| congruence].
  destruct (Zmod.eqb_spec 0 (0 : Zmod p)) as [_ | N]; [| congruence].
  reflexivity.
Qed.

Lemma a_add_self_tangent (a u v : Zmod p) :
  v <> 0 ->
  a_add a (Some (u, v)) (Some (u, v)) =
  chord (fdiv (three * u * u + a) (two * v)) u v u.
Proof.
  intros Hv. unfold a_add.
  destruct (Zmod.eqb_spec u u) as [_ | N]; [| congruence].
  destruct (Zmod.eqb_spec v v) as [_ | N]; [| congruence].
  destruct (Zmod.eqb_spec v 0) as [E | _]; [contradiction |].
  reflexivity.
Qed.

Lemma a_add_chord (a x1 y1 x2 y2 : Zmod p) :
  x1 <> x2 ->
  a_add a (Some (x1, y1)) (Some (x2, y2)) =
  chord (fdiv (y2 - y1) (x2 - x1)) x1 y1 x2.
Proof.
  intros Hx. unfold a_add.
  destruct (Zmod.eqb_spec x1 x2) as [E | _]; [contradiction |].
  reflexivity.
Qed.

Lemma a_add_vertical (a x1 y1 x2 y2 : Zmod p) :
  x1 = x2 -> y1 <> y2 -> a_add a (Some (x1, y1)) (Some (x2, y2)) = None.
Proof.
  intros Hx Hy. unfold a_add.
  destruct (Zmod.eqb_spec x1 x2) as [_ | N]; [| contradiction].
  destruct (Zmod.eqb_spec y1 y2) as [E | _]; [contradiction |].
  reflexivity.
Qed.

(** Names the inverses that occur in the goal and keeps their equations. *)
Ltac name_inverses :=
  repeat match goal with
  | |- context [Zmod.inv ?u] =>
      let i := fresh "i" in
      let Hi := fresh "Hi" in
      assert (Hi : u * Zmod.inv u = 1) by (apply inv_r; assumption);
      set (i := Zmod.inv u) in *; clearbody i
  end.

Lemma jacobian_double_aff (J : jac) :
  (0 <= snd J < p)%Z ->
  exists J', _jacobian_double J c = Ok J' /\ (0 <= snd J' < p)%Z /\
             jaff c J' = a_add ca (jaff c J) (jaff c J).
Proof.
  destruct J as [[x y] z]. simpl snd. intros Hz.
  pose proof p_pos as Hp1.
  unfold _jacobian_double.
  destruct (Z.eqb_spec y 0) as [Ey | Ey]; cbn [orb].
  { eexists; split; [reflexivity |]. split; [simpl; lia |].
    unfold jaff. cbn [Z.eqb].
    destruct (Z.eqb_spec z 0) as [Ez | Ez]; [reflexivity |].
    symmetry. apply a_add_self_opp. subst y. rewrite fe_0. nsatz. }
  destruct (Z.eqb_spec z 0) as [Ez | Ez].
  { eexists; split; [reflexivity |]. split; [simpl; lia |].
    subst z. reflexivity. }
  rewrite mod_guard_nonzero by lia.
  eexists; split; [reflexivity |].
  split; [simpl; apply Z.mod_pos_bound; lia |].
  assert (HZ : fe c z <> 0) by (apply fe_nonzero; assumption).
  unfold jaff.
  destruct (Z.eqb_spec z 0) as [Ez' | _]; [contradiction |].
  destruct (Z.eqb_spec ((2 * y * z) mod p) 0) as [E | E].
  - symmetry. apply a_add_self_opp.
    apply fe_eq0 in E. revert E. fe_push. intros E.
    assert (EY : fe c y = 0).
    { destruct (Zmod.eqb_spec (fe c y) 0) as [E0 | N0]; [assumption |].
      exfalso. revert E. apply mul_nz; [apply mul_nz |]; auto using two_nz. }
    rewrite EY. nsatz.
  - assert (HY : fe c y <> 0).
    { intros E0. apply E. apply fe_eq0. fe_push. rewrite E0. nsatz. }
    assert (HZ' : fe c ((2 * y * z) mod p) <> 0).
    { intros E0. apply E. apply fe_eq0. rewrite fe_mod in E0. exact E0. }
    assert (HI : Zmod.inv (fe c z) <> 0).
    { intros E0. pose proof (inv_r _ HZ) as Hr. rewrite E0 in Hr.
      apply (@integral_domain_one_zero _ _ _ _ _ _ _ _ _ _ _ Fp_domain).
      cbv [equality]. nsatz. }
    rewrite a_add_self_tangent by (repeat apply mul_nz; assumption).
    assert (HV : two * (fe c y * (Zmod.inv (fe c z) * Zmod.inv (fe c z)
                                  * Zmod.inv (fe c z))) <> 0).
    { repeat apply mul_nz; auto using two_nz. }
    unfold chord, fdiv. cbv zeta.
    revert HZ'. fe_push. intros HZ'.
    unfold two, three in *. name_inverses.
    f_equal. f_equal; fnsatz.
Qed.

Lemma jaff_finite (x y z : Z) :
  (0 <= z < p)%Z -> z <> 0%Z ->
  exists i, fe c z * i = 1 /\
            jaff c (x, y, z) = Some (fe c x * (i * i), fe c y * (i * i * i)).
Proof.
  intros Hz Ez. exists (Zmod.inv (fe c z)). split.
  - apply inv_r, fe_nonzero; assumption.
  - unfold jaff. destruct (Z.eqb_spec z 0) as [E | _]; [contradiction |].
    reflexivity.
Qed.

Lemma jaff_identity (x y : Z) : jaff c (x, y, 0%Z) = None.
Proof. reflexivity. Qed.

Lemma fdiv_witness (u v : Zmod p) :
  v <> 0 -> exists i, v * i = 1 /\ fdiv u v = u * i.
Proof.
  intros Hv. exists (Zmod.inv v). split; [apply inv_r; assumption | reflexivity].
Qed.

Lemma jacobian_add_aff (J1 J2 : jac) :
  (0 <= snd J1 < p)%Z -> (0 <= snd J2 < p)%Z ->
  exists J', _jacobian_add J1 J2 c = Ok J' /\ (0 <= snd J' < p)%Z /\
             jaff c J' = a_add ca (jaff c J1) (jaff c J2).
Proof.
  destruct J1 as [[x1 y1] z1], J2 as [[x2 y2] z2]. simpl snd. intros Hz1 Hz2.
  pose proof p_pos as Hp1.
  unfold _jacobian_add.
  destruct (Z.eqb_spec z1 0) as [E1 | E1].
  { eexists; split; [reflexivity |]. split; [assumption |].
    subst z1. rewrite jaff_identity. reflexivity. }
  destruct (Z.eqb_spec z2 0) as [E2 | E2].
  { eexists; split; [reflexivity |]. split; [assumption |].
    subst z2. rewrite jaff_identity, a_add_0_r. reflexivity. }
  rewrite mod_guard_nonzero by lia. cbn [bind]. cbv zeta.
  destruct (jaff_finite x1 y1 z1 Hz1 E1) as (i1 & Hi1 & HJ1).
  destruct (jaff_finite x2 y2 z2 Hz2 E2) as (i2 & Hi2 & HJ2).
  match goal with |- context [if ?t =? 0 then _ else _] =>
    destruct (Z.eqb_spec t 0) as [Eh | Eh] end.
  - apply fe_eq0 in Eh. revert Eh. fe_push. intros Eh.
    match goal with |- context [if ?t =? 0 then _ else _] =>
      destruct (Z.eqb_spec t 0) as [Er | Er] end.
    + apply fe_eq0 in Er. revert Er. fe_push. intros Er.
      destruct (jacobian_double_aff (x1, y1, z1) Hz1) as (J' & HJ' & Hz' & Ha).
      exists J'. split; [assumption |]. split; [assumption |].
      rewrite Ha. f_equal. rewrite HJ1, HJ2. f_equal. f_equal; fnsatz.
    + eexists; split; [reflexivity |]. split; [simpl; lia |].
      rewrite jaff_identity, HJ1, HJ2. symmetry. apply a_add_vertical.
      * fnsatz.
      * intros E. apply Er. apply fe_eq0. fe_push. fnsatz.
  - eexists; split; [reflexivity |].
    split; [simpl; apply Z.mod_pos_bound; lia |].
    assert (Hh : fe c x2 * (fe c z1 * fe c z1) - fe c x1 * (fe c z2 * fe c z2)
                 <> 0).
    { intros E. apply Eh. apply fe_eq0. fe_push. exact E. }
    assert (HZ1 : fe c z1 <> 0) by (apply fe_nonzero; assumption).
    assert (HZ2 : fe c z2 <> 0) by (apply fe_nonzero; assumption).
    match goal with |- jaff c (?x3, ?y3, ?z3) = _ =>
      destruct (jaff_finite x3 y3 z3) as (i3 & Hi3 & HJ3) end.
    { apply Z.mod_pos_bound; lia. }
    { intros E. apply fe_eq0 in E. revert E. fe_push.
      repeat apply mul_nz; assumption. }
    rewrite HJ3, HJ1, HJ2.
    assert (Hx : fe c x1 * (i1 * i1) <> fe c x2 * (i2 * i2)).
    { intros E. apply Hh. fnsatz. }
    rewrite a_add_chord by assumption.
    destruct (fdiv_witness (fe c y2 * (i2 * i2 * i2) - fe c y1 * (i1 * i1 * i1))
                (fe c x2 * (i2 * i2) - fe c x1 * (i1 * i1))) as (l & Hl & ->).
    { intros E. apply Hx. fnsatz. }
    unfold chord. cbv zeta. revert Hi3. fe_push. intros Hi3.
    clear Hh Hx HZ1 HZ2.
    f_equal. f_equal; fnsatz.
Qed.

(** *** Points and their images in the field *)

Hypothesis Hns : nonsingular c.

Lemma disc_nz :
  two * two * ca * ca * ca + three * three * three * cb * cb <> 0.
Proof.
  intros E. apply Hns. apply fe_eq0.
  replace 27%Z with (3 * 3 * 3)%Z by reflexivity.
  fe_push. unfold two, three in E. fnsatz.
Qed.

Lemma on_curve_aff (P : Point.t) :
  Point.curve P = c -> on_curve P -> a_on ca cb (aff c P).
Proof.
  unfold on_curve, aff. intros Hc. rewrite Hc.
  destruct (Point.x P) as [xv |], (Point.y P) as [yv |];
    try (intros; exact I).
  intros [_ Hr]. apply curve_residue_fe in Hr. exact Hr.
Qed.

Lemma aff_identity (P : Point.t) : is_at_infinity P = true -> aff c P = None.
Proof.
  unfold is_at_infinity, aff.
  destruct (Point.x P), (Point.y P); try discriminate. reflexivity.
Qed.

Lemma aff_inj (P Q : Point.t) :
  Point.curve P = c -> Point.curve Q = c -> on_curve P -> on_curve Q ->
  reduced P -> reduced Q -> aff c P = aff c Q -> P = Q.
Proof.
  destruct P as [cP xP yP], Q as [cQ xQ yQ].
  unfold on_curve, reduced, aff. simpl.
  intros -> -> HP HQ RP RQ E.
  destruct xP as [x1 |], yP as [y1 |], xQ as [x2 |], yQ as [y2 |];
    try contradiction; try discriminate; try reflexivity.
  assert (Ex : fe c x1 = fe c x2) by congruence.
  assert (Ey : fe c y1 = fe c y2) by congruence.
  apply fe_eq in Ex, Ey.
  rewrite !Z.mod_small in Ex, Ey by tauto. subst. reflexivity.
Qed.

Lemma to_jacobian_aff (P : Point.t) :
  on_curve P ->
  exists J, _to_jacobian P = Ok J /\ (0 <= snd J < p)%Z /\ jaff c J = aff c P.
Proof.
  pose proof p_pos as Hp1.
  unfold on_curve, _to_jacobian, aff.
  destruct (Point.x P) as [xv |], (Point.y P) as [yv |]; try contradiction.
  - intros _. eexists; split; [reflexivity |]. split; [simpl; lia |].
    destruct (jaff_finite xv yv 1) as (i & Hi & ->); [lia | lia |].
    revert Hi. fe_push. intros Hi. f_equal. f_equal; fnsatz.
  - intros _. eexists; split; [reflexivity |]. split; [simpl; lia |].
    reflexivity.
Qed.

Lemma from_jacobian_aff (J : jac) :
  (0 <= snd J < p)%Z -> a_on ca cb (jaff c J) ->
  exists P, _from_jacobian J c = Ok P /\ aff c P = jaff c J.
Proof.
  destruct J as [[x y] z]. simpl snd. intros Hz Hon.
  pose proof p_pos as Hp1.
  unfold _from_jacobian.
  destruct (Z.eqb_spec z 0) as [E | E].
  { subst z. eexists; split; [reflexivity | reflexivity]. }
  destruct (pow_inv_prime z) as (zi & -> & Hzi); [lia |]. cbn [bind].
  destruct (jaff_finite x y z Hz E) as (i & Hi & HJ).
  rewrite HJ in Hon |- *. unfold a_on in Hon.
  rewrite Point__init__accepts.
  - eexists; split; [reflexivity |]. unfold aff, finite; simpl.
    fe_push. f_equal. f_equal; fnsatz.
  - lia.
  - apply curve_residue_fe. fe_push. fnsatz.
Qed.

(** *** The loop of [__mul__] adds the multiple to the accumulator *)

Lemma mul_loop_aff (k : positive) (R C : jac) :
  (0 <= snd R < p)%Z -> (0 <= snd C < p)%Z ->
  a_on ca cb (jaff c R) -> a_on ca cb (jaff c C) ->
  exists R', mul_loop k R C c = Ok R' /\ (0 <= snd R' < p)%Z /\
    jaff c R' = a_add ca (jaff c R) (a_mul_nat ca (Pos.to_nat k) (jaff c C)).
Proof.
  revert R C.
  induction k as [k IH | k IH |]; intros R C HzR HzC HR HC; simpl mul_loop.
  - destruct (jacobian_add_aff R C HzR HzC) as (R1 & -> & HzR1 & HR1).
    destruct (jacobian_double_aff C HzC) as (C1 & -> & HzC1 & HC1).
    cbn [bind].
    destruct (IH R1 C1 HzR1 HzC1) as (R' & HR' & HzR' & Ha).
    { rewrite HR1. apply a_add_on; assumption. }
    { rewrite HC1. apply a_add_on; assumption. }
    exists R'. split; [assumption |]. split; [assumption |].
    rewrite Ha, HR1, HC1, (a_mul_nat_double ca cb disc_nz) by assumption.
    rewrite Pos2Nat.inj_xI. cbn [a_mul_nat].
    apply (a_add_assoc ca cb disc_nz); auto using a_mul_nat_on.
  - destruct (jacobian_double_aff C HzC) as (C1 & -> & HzC1 & HC1).
    cbn [bind].
    destruct (IH R C1 HzR HzC1) as (R' & HR' & HzR' & Ha).
    { assumption. }
    { rewrite HC1. apply a_add_on; assumption. }
    exists R'. split; [assumption |]. split; [assumption |].
    rewrite Ha, HC1, (a_mul_nat_double ca cb disc_nz) by assumption.
    rewrite Pos2Nat.inj_xO. reflexivity.
  - destruct (jacobian_add_aff R C HzR HzC) as (R1 & -> & HzR1 & HR1).
    destruct (jacobian_double_aff C HzC) as (C1 & -> & HzC1 & HC1).
    cbn [bind]. exists R1. split; [reflexivity |]. split; [assumption |].
    rewrite HR1. change (Pos.to_nat 1) with 1%nat.
    rewrite a_mul_nat_1. reflexivity.
Qed.

(** *** The operations of [Point] in the group *)

Lemma fe_p : fe c p = 0.
Proof. apply fe_eq0. apply Z_mod_same_full. Qed.

Lemma Point__add__aff (P Q : Point.t) :
  Point.curve P = c -> Point.curve Q = c -> on_curve P -> on_curve Q ->
  exists R, Point__add__ P Q = Ok R /\
            aff c R = a_add ca (aff c P) (aff c Q).
Proof.
  intros HcP HcQ HP HQ. unfold Point__add__.
  rewrite HcP, HcQ, Curve__eq__same_object. cbn [bind negb].
  destruct (is_at_infinity P) eqn:HiP.
  { exists Q. split; [reflexivity |].
    rewrite (aff_identity P HiP). reflexivity. }
  destruct (is_at_infinity Q) eqn:HiQ.
  { exists P. split; [reflexivity |].
    rewrite (aff_identity Q HiQ), a_add_0_r. reflexivity. }
  destruct (to_jacobian_aff P HP) as (JP & -> & HzP & HJP).
  destruct (to_jacobian_aff Q HQ) as (JQ & -> & HzQ & HJQ). cbn [bind].
  destruct (jacobian_add_aff JP JQ HzP HzQ) as (JR & -> & HzR & HJR).
  cbn [bind].
  destruct (from_jacobian_aff JR HzR) as (R & HR & HaR).
  { rewrite HJR, HJP, HJQ. apply a_add_on; apply on_curve_aff; assumption. }
  exists R. split; [assumption |]. rewrite HaR, HJR, HJP, HJQ. reflexivity.
Qed.

Lemma Point__neg__aff (P : Point.t) :
  Point.curve P = c -> on_curve P ->
  exists N, Point__neg__ P = Ok N /\ aff c N = a_neg (aff c P).
Proof.
  intros Hc HP. unfold Point__neg__.
  destruct (is_at_infinity P) eqn:Hi.
  { exists P. split; [reflexivity |]. rewrite (aff_identity P Hi). reflexivity. }
  unfold on_curve, is_at_infinity, aff in *.
  destruct (Point.x P) as [xv |], (Point.y P) as [yv |];
    try contradiction; try discriminate.
  rewrite Hc in *. destruct HP as [Hp0 Hr].
  rewrite Point__init__accepts;
    [| assumption | rewrite curve_residue_neg; assumption].
  eexists; split; [reflexivity |]. unfold finite; simpl.
  rewrite fe_sub, fe_p. f_equal; f_equal; fnsatz.
Qed.

Lemma double_and_add_aff (P : Point.t) (k : positive) :
  Point.curve P = c -> on_curve P ->
  exists R, double_and_add P (Zpos k) = Ok R /\
            aff c R = a_mul_nat ca (Pos.to_nat k) (aff c P).
Proof.
  intros Hc HP. unfold double_and_add.
  destruct (to_jacobian_aff P HP) as (JP & -> & HzP & HJP). cbn [bind].
  rewrite Hc.
  pose proof p_pos as Hp1.
  pose proof (on_curve_aff P Hc HP) as Hon.
  destruct (mul_loop_aff k (1, 1, 0)%Z JP) as (JR & -> & HzR & HJR);
    [simpl; lia | assumption | exact I | rewrite HJP; assumption |].
  cbn [bind].
  rewrite jaff_identity, a_add_0_l, HJP in HJR.
  destruct (from_jacobian_aff JR HzR) as (R & HR & HaR).
  { rewrite HJR. apply a_mul_nat_on. assumption. }
  exists R. split; [assumption |]. rewrite HaR. exact HJR.
Qed.

(** A scalar [k] with [0 < k] and [k mod n <> 0] goes through the loop. *)
Lemma Point__mul__aff_pos (P : Point.t) (k : Z) :
  Point.curve P = c -> on_curve P -> Curve.n c <> 0%Z ->
  (0 < k)%Z -> (k mod Curve.n c <> 0)%Z ->
  exists R, Point__mul__ P k = Ok R /\
            aff c R = a_mul_nat ca (Z.to_nat k) (aff c P).
Proof.
  intros Hc HP Hn Hk Hkn. unfold Point__mul__.
  destruct (is_at_infinity P) eqn:Hi.
  { eexists; split; [reflexivity |].
    rewrite (aff_identity P Hi), a_mul_nat_identity. reflexivity. }
  rewrite Hc.
  rewrite mod_guard_nonzero by assumption. cbn [bind].
  destruct (Z.eqb_spec (k mod Curve.n c) 0) as [E | _]; [contradiction |].
  destruct (Z.ltb_spec k 0) as [Hlt | _]; [lia |].
  destruct k as [| kp | kp]; try lia.
  rewrite Z2Nat.inj_pos. apply double_and_add_aff; assumption.
Qed.

(** With a scalar [n] of the curve that kills [P], [k * P] is the multiple
    of [P] by [k mod n]. *)
Lemma Point__mul__aff (P : Point.t) (k : Z) :
  Point.curve P = c -> on_curve P -> (0 < Curve.n c)%Z ->
  a_mul_nat ca (Z.to_nat (Curve.n c)) (aff c P) = None ->
  exists R, Point__mul__ P k = Ok R /\
            aff c R = a_mul_nat ca (Z.to_nat (k mod Curve.n c)) (aff c P).
Proof.
  intros Hc HP Hn Hord.
  pose proof (on_curve_aff P Hc HP) as Hon.
  assert (Hn0 : Z.to_nat (Curve.n c) <> 0%nat) by lia.
  pose proof (Z.mod_pos_bound k (Curve.n c) Hn) as Hm.
  unfold Point__mul__.
  destruct (is_at_infinity P) eqn:Hi.
  { eexists; split; [reflexivity |].
    rewrite (aff_identity P Hi), a_mul_nat_identity. reflexivity. }
  rewrite Hc, mod_guard_nonzero by lia. cbn [bind].
  destruct (Z.eqb_spec (k mod Curve.n c) 0) as [E | E].
  { eexists; split; [reflexivity |]. rewrite E. reflexivity. }
  destruct (Z.ltb_spec k 0) as [Hlt | Hge].
  - destruct (Point__neg__aff P Hc HP) as (N & HN & HaN). rewrite HN.
    cbn [bind].
    pose proof (Point__neg__returns _ _ HN HP) as (HonN & HcN & HiN).
    rewrite Hc in HcN. unfold mul_nonneg. rewrite HiN, Hi, HcN.
    rewrite mod_guard_nonzero by lia. cbn [bind].
    assert (Eo : ((- k) mod Curve.n c = Curve.n c - k mod Curve.n c)%Z).
    { apply Z_mod_nz_opp_full. assumption. }
    destruct (Z.eqb_spec ((- k) mod Curve.n c) 0) as [E' | _]; [lia |].
    destruct k as [| kp | kp]; try lia.
    change (- Z.neg kp)%Z with (Z.pos kp) in *.
    destruct (double_and_add_aff N kp HcN HonN) as (R & HR & HaR).
    exists R. split; [assumption |].
    rewrite HaR, HaN, a_mul_nat_neg with (b := cb) by assumption.
    rewrite <- (a_mul_nat_mod ca cb disc_nz (Z.to_nat (Curve.n c)))
      by assumption.
    rewrite <- Z2Nat.inj_pos, <- Z2Nat.inj_mod by lia.
    rewrite Eo, Z2Nat.inj_sub by lia.
    rewrite (a_mul_nat_compl ca cb disc_nz) by (assumption || lia).
    apply a_neg_neg.
  - destruct k as [| kp | kp]; try lia.
    { rewrite Z.mod_0_l in E by lia. contradiction. }
    destruct (double_and_add_aff P kp Hc HP) as (R & HR & HaR).
    exists R. split; [assumption |].
    rewrite HaR, <- Z2Nat.inj_pos, Z2Nat.inj_mod by lia.
    symmetry. apply (a_mul_nat_mod ca cb disc_nz); assumption.
Qed.

(** *** Results as points of the curve in reduced form *)

Lemma aff_none_infinity (R : Point.t) :
  Point.curve R = c -> on_curve R -> aff c R = None -> R = infinity c.
Proof.
  destruct R as [cR xR yR]. unfold on_curve, aff, infinity. simpl.
  intros -> H E.
  destruct xR, yR; try contradiction; try discriminate. reflexivity.
Qed.

Lemma Point__add__spec (P Q : Point.t) :
  Point.curve P = c -> Point.curve Q = c -> on_curve P -> on_curve Q ->
  exists R, Point__add__ P Q = Ok R /\
            Point.curve R = c /\ on_curve R /\
            (reduced P -> reduced Q -> reduced R) /\
            aff c R = a_add ca (aff c P) (aff c Q).
Proof.
  intros HcP HcQ HP HQ.
  destruct (Point__add__aff P Q HcP HcQ HP HQ) as (R & HR & Ha).
  exists R. split; [assumption |].
  pose proof (Point__add__returns _ _ _ HR HP HQ) as (HonR & Hfin).
  pose proof p_pos as Hp1.
  unfold Point__add__ in HR.
  rewrite HcP, HcQ, Curve__eq__same_object in HR. cbn [bind negb] in HR.
  destruct (is_at_infinity P) eqn:HiP.
  { injection HR as <-. auto. }
  destruct (is_at_infinity Q) eqn:HiQ.
  { injection HR as <-. auto. }
  destruct (Hfin eq_refl eq_refl) as (HcR & Hred).
  rewrite HcP in *. repeat split; auto. intros _ _. apply Hred. lia.
Qed.

Lemma Point__mul__spec (P : Point.t) (k : Z) :
  Point.curve P = c -> on_curve P -> (0 < Curve.n c)%Z ->
  a_mul_nat ca (Z.to_nat (Curve.n c)) (aff c P) = None ->
  exists R, Point__mul__ P k = Ok R /\
            Point.curve R = c /\ on_curve R /\ reduced R /\
            aff c R = a_mul_nat ca (Z.to_nat (k mod Curve.n c)) (aff c P).
Proof.
  intros Hc HP Hn Hord.
  destruct (Point__mul__aff P k Hc HP Hn Hord) as (R & HR & Ha).
  exists R. split; [assumption |].
  pose proof (Point__mul__returns _ _ _ HR HP) as (HonR & HcR & Hred).
  pose proof p_pos as Hp1. rewrite Hc in *.
  repeat split; auto. apply Hred. lia.
Qed.

(** The order of [P] divides [n], read in the group. *)
Lemma n_kills_aff (P : Point.t) :
  Point.curve P = c -> on_curve P -> (1 < Curve.n c)%Z -> n_kills P ->
  a_mul_nat ca (Z.to_nat (Curve.n c)) (aff c P) = None.
Proof.
  intros Hc HP Hn (T & HT & HS). rewrite Hc in *.
  destruct (Point__mul__aff_pos P (Curve.n c - 1) Hc HP) as (T' & HT' & HaT);
    [lia | lia | rewrite Z.mod_small; lia |].
  rewrite HT in HT'. injection HT' as <-.
  pose proof (Point__mul__returns _ _ _ HT HP) as (HonT & HcT & _).
  rewrite Hc in HcT.
  destruct (Point__add__aff T P HcT Hc HonT HP) as (S' & HS' & HaS).
  rewrite HS in HS'. injection HS' as <-.
  change (aff c (infinity c)) with (@None (Zmod p * Zmod p)) in HaS.
  replace (Z.to_nat (Curve.n c)) with (S (Z.to_nat (Curve.n c - 1))) by lia.
  cbn [a_mul_nat]. rewrite <- HaT.
  rewrite (a_add_comm ca cb); auto using on_curve_aff.
Qed.

(** Multiples of a point killed by [n] are killed by [n]. *)
Lemma a_mul_nat_killed (n k : nat) (A : apoint p) :
  a_on ca cb A -> a_mul_nat ca n A = None ->
  a_mul_nat ca n (a_mul_nat ca k A) = None.
Proof.
  intros HA Hn.
  rewrite <- (a_mul_nat_mul ca cb disc_nz), Nat.mul_comm by assumption.
  apply (a_mul_nat_order ca cb disc_nz); assumption.
Qed.

(** Scalars are counted modulo [n] on a point killed by [n]. *)
Lemma a_mul_nat_mod_Z (n z : Z) (A : apoint p) :
  a_on ca cb A -> (0 < n)%Z -> (0 <= z)%Z ->
  a_mul_nat ca (Z.to_nat n) A = None ->
  a_mul_nat ca (Z.to_nat (z mod n)) A = a_mul_nat ca (Z.to_nat z) A.
Proof.
  intros HA Hn Hz Hord. rewrite Z2Nat.inj_mod by lia.
  apply (a_mul_nat_mod ca cb disc_nz); [assumption | lia | assumption].
Qed.

(** *** The group laws on the operations of [Point] *)

Lemma Point__add__comm (P Q : Point.t) :
  Point.curve P = c -> Point.curve Q = c -> on_curve P -> on_curve Q ->
  exists R, Point__add__ P Q = Ok R /\ Point__add__ Q P = Ok R.
Proof.
  intros HcP HcQ HP HQ.
  destruct (Point__add__spec P Q HcP HcQ HP HQ) as (R & HR & HcR & HonR & _ & Ha).
  destruct (Point__add__spec Q P HcQ HcP HQ HP) as (R' & HR' & HcR' & HonR' & _ & Ha').
  exists R. split; [assumption |]. rewrite HR'. f_equal.
  assert (Ea : aff c R' = aff c R).
  { rewrite Ha, Ha'. apply (a_add_comm ca cb); auto using on_curve_aff. }
  pose proof p_pos as Hp1.
  pose proof (Point__add__returns _ _ _ HR HP HQ) as (_ & HfR).
  pose proof (Point__add__returns _ _ _ HR' HQ HP) as (_ & HfR').
  unfold Point__add__ in HR, HR'.
  rewrite HcP, HcQ, Curve__eq__same_object in HR, HR'.
  cbn [bind negb] in HR, HR'.
  destruct (is_at_infinity P) eqn:HiP, (is_at_infinity Q) eqn:HiQ.
  - injection HR as <-. injection HR' as <-.
    rewrite (aff_none_infinity P), (aff_none_infinity Q);
      auto using aff_identity.
  - injection HR as <-. injection HR' as <-. reflexivity.
  - injection HR as <-. injection HR' as <-. reflexivity.
  - destruct (HfR eq_refl eq_refl) as (_ & HrR).
    destruct (HfR' eq_refl eq_refl) as (_ & HrR').
    rewrite HcP in HrR. rewrite HcQ in HrR'.
    apply aff_inj; auto; [apply HrR' | apply HrR]; lia.
Qed.

Lemma Point__neg__inverse (P : Point.t) :
  Point.curve P = c -> on_curve P ->
  exists N, Point__neg__ P = Ok N /\ Point__add__ P N = Ok (infinity c).
Proof.
  intros Hc HP.
  destruct (Point__neg__aff P Hc HP) as (N & HN & HaN).
  pose proof (Point__neg__returns _ _ HN HP) as (HonN & HcN & _).
  rewrite Hc in HcN.
  destruct (Point__add__spec P N Hc HcN HP HonN) as (R & HR & HcR & HonR & _ & Ha).
  exists N. split; [assumption |]. rewrite HR. f_equal.
  apply aff_none_infinity; [assumption | assumption |].
  rewrite Ha, HaN. apply (a_add_neg_r ca cb). apply on_curve_aff; assumption.
Qed.

Lemma Point__add__assoc (P Q R : Point.t) :
  Point.curve P = c -> Point.curve Q = c -> Point.curve R = c ->
  on_curve P -> on_curve Q -> on_curve R ->
  reduced P -> reduced Q -> reduced R ->
  exists PQ QR S,
    Point__add__ P Q = Ok PQ /\ Point__add__ PQ R = Ok S /\
    Point__add__ Q R = Ok QR /\ Point__add__ P QR = Ok S.
Proof.
  intros HcP HcQ HcR HP HQ HR RP RQ RR.
  destruct (Point__add__spec P Q HcP HcQ HP HQ)
    as (PQ & HPQ & HcPQ & HonPQ & HrPQ & HaPQ).
  destruct (Point__add__spec PQ R HcPQ HcR HonPQ HR)
    as (S1 & HS1 & HcS1 & HonS1 & HrS1 & HaS1).
  destruct (Point__add__spec Q R HcQ HcR HQ HR)
    as (QR & HQR & HcQR & HonQR & HrQR & HaQR).
  destruct (Point__add__spec P QR HcP HcQR HP HonQR)
    as (S2 & HS2 & HcS2 & HonS2 & HrS2 & HaS2).
  exists PQ, QR, S1. repeat split; try assumption.
  rewrite HS2. f_equal. apply aff_inj; auto.
  rewrite HaS1, HaS2, HaPQ, HaQR. symmetry.
  apply (a_add_assoc ca cb disc_nz); auto using on_curve_aff.
Qed.

Lemma Point__mul__add (P : Point.t) (j k : Z) :
  Point.curve P = c -> on_curve P -> (1 < Curve.n c)%Z -> n_kills P ->
  exists A B S,
    Point__mul__ P j = Ok A /\ Point__mul__ P k = Ok B /\
    Point__add__ A B = Ok S /\ Point__mul__ P (j + k) = Ok S.
Proof.
  intros Hc HP Hn Hk.
  pose proof (n_kills_aff P Hc HP Hn Hk) as Hord.
  pose proof (on_curve_aff P Hc HP) as Hon.
  assert (Hn0 : (0 < Curve.n c)%Z) by lia.
  destruct (Point__mul__spec P j Hc HP Hn0 Hord) as (A & HA & HcA & HonA & HrA & HaA).
  destruct (Point__mul__spec P k Hc HP Hn0 Hord) as (B & HB & HcB & HonB & HrB & HaB).
  destruct (Point__mul__spec P (j + k) Hc HP Hn0 Hord)
    as (S2 & HS2 & HcS2 & HonS2 & HrS2 & HaS2).
  destruct (Point__add__spec A B HcA HcB HonA HonB)
    as (S1 & HS1 & HcS1 & HonS1 & HrS1 & HaS1).
  exists A, B, S1. repeat split; try assumption.
  rewrite HS2. f_equal. apply aff_inj; auto.
  rewrite HaS1, HaS2, HaA, HaB.
  rewrite <- (a_mul_nat_add ca cb disc_nz) by assumption.
  pose proof (Z.mod_pos_bound j (Curve.n c) Hn0).
  pose proof (Z.mod_pos_bound k (Curve.n c) Hn0).
  rewrite <- Z2Nat.inj_add by lia.
  rewrite <- (a_mul_nat_mod_Z (Curve.n c) (j mod Curve.n c + k mod Curve.n c))
    by (assumption || lia).
  rewrite <- Z.add_mod by lia. reflexivity.
Qed.

Lemma Point__mul__mul (P : Point.t) (j k : Z) :
  Point.curve P = c -> on_curve P -> (1 < Curve.n c)%Z -> n_kills P ->
  exists B S,
    Point__mul__ P k = Ok B /\ Point__mul__ B j = Ok S /\
    Point__mul__ P (j * k) = Ok S.
Proof.
  intros Hc HP Hn Hk.
  pose proof (n_kills_aff P Hc HP Hn Hk) as Hord.
  pose proof (on_curve_aff P Hc HP) as Hon.
  assert (Hn0 : (0 < Curve.n c)%Z) by lia.
  destruct (Point__mul__spec P k Hc HP Hn0 Hord) as (B & HB & HcB & HonB & HrB & HaB).
  destruct (Point__mul__spec B j HcB HonB Hn0) as (S1 & HS1 & HcS1 & HonS1 & HrS1 & HaS1).
  { rewrite HaB. apply a_mul_nat_killed; assumption. }
  destruct (Point__mul__spec P (j * k) Hc HP Hn0 Hord)
    as (S2 & HS2 & HcS2 & HonS2 & HrS2 & HaS2).
  exists B, S1. repeat split; try assumption.
  rewrite HS2. f_equal. apply aff_inj; auto.
  rewrite HaS1, HaS2, HaB.
  rewrite <- (a_mul_nat_mul ca cb disc_nz) by assumption.
  pose proof (Z.mod_pos_bound j (Curve.n c) Hn0).
  pose proof (Z.mod_pos_bound k (Curve.n c) Hn0).
  rewrite <- Z2Nat.inj_mul by lia.
  rewrite <- (a_mul_nat_mod_Z (Curve.n c) (j mod Curve.n c * (k mod Curve.n c)))
    by (assumption || nia).
  rewrite <- Z.mul_mod by lia. reflexivity.
Qed.

End PrimeField.

(** ** Verification *)

Lemma verify_signature_point (Q : Point.t) (m : bytes) (r s : Z) :
  ecdsa.verify_signature Q m (r, s) =
  if negb ((1 <=? r) && (r <? Curve.n (Point.curve Q))
           && ((1 <=? s) && (s <? Curve.n (Point.curve Q))))
  then Ok false
  else
    P <- verify_point Q m r s ;;
    if is_identity P then Ok false
    else
      match Point.x P with
      | Some xv => Ok (xv mod Curve.n (Point.curve Q) =? r)
      | None => Raise TypeError
      end.
Proof.
  unfold ecdsa.verify_signature, verify_point.
  destruct (negb _); [reflexivity |].
  destruct (pow_inv s _) as [si | |]; cbn [bind]; try reflexivity.
  destruct (Point__rmul__ (Curve_g _) _) as [A | |]; cbn [bind];
    try reflexivity.
  destruct (Point__rmul__ Q _) as [B | |]; cbn [bind]; reflexivity.
Qed.

Lemma pow_inv_prime_order (n s : Z) :
  Z.prime n -> 1 <= s < n -> exists si, pow_inv s n = Ok si.
Proof.
  intros Hn Hs. unfold pow_inv.
  destruct (Z.eqb_spec n 0) as [E | _]; [lia |].
  assert (Hg : Z.gcd s n = 1).
  { rewrite Z.gcd_comm. apply Z.coprime_prime_small; assumption. }
  rewrite Hg. simpl. eexists; reflexivity.
Qed.

(** C3, as the code has it.  On a curve whose modulus [p] and order [n] are
    prime, for every public key [Q] on the curve, every message and every
    pair [(r, s)], [verify_signature] returns a boolean and does not raise:
    [False] when [r] or [s] is outside [[1, n-1]]; otherwise the point
    [u1*G + u2*Q] is computed, and the result is [False] when it is the
    identity and the test [x mod n == r] on its x-coordinate when it is
    not. *)
Theorem verify_signature_returns_a_boolean
  (Q : Point.t) (m : bytes) (r s : Z) :
  Z.prime (Curve.p (Point.curve Q)) ->
  Z.prime (Curve.n (Point.curve Q)) ->
  on_curve Q -> on_curve (Curve_g (Point.curve Q)) ->
  (~ (1 <= r < Curve.n (Point.curve Q) /\ 1 <= s < Curve.n (Point.curve Q)) ->
   ecdsa.verify_signature Q m (r, s) = Ok false) /\
  (1 <= r < Curve.n (Point.curve Q) /\ 1 <= s < Curve.n (Point.curve Q) ->
   exists P,
     verify_point Q m r s = Ok P /\
     ecdsa.verify_signature Q m (r, s) =
     Ok (negb (is_identity P) &&
         match Point.x P with
         | Some xv => xv mod Curve.n (Point.curve Q) =? r
         | None => false
         end)).
Proof.
  intros Hp Hn HQ HG. set (c := Point.curve Q) in *.
  rewrite verify_signature_point. fold c. split.
  - intros Hout.
    destruct ((1 <=? r) && (r <? Curve.n c) && ((1 <=? s) && (s <? Curve.n c)))
      eqn:E; [| reflexivity].
    exfalso. apply Hout.
    rewrite !andb_true_iff in E. lia.
  - intros [Hr Hs].
    replace ((1 <=? r) && (r <? Curve.n c) && ((1 <=? s) && (s <? Curve.n c)))
      with true by (symmetry; rewrite !andb_true_iff; lia).
    cbn [negb].
    assert (Hn0 : Curve.n c <> 0) by lia.
    assert (HP : exists P, verify_point Q m r s = Ok P /\ on_curve P).
    { unfold verify_point. fold c.
      destruct (pow_inv_prime_order _ s Hn Hs) as (si & ->). cbn [bind].
      destruct (Point__mul__ok c Hp (Curve_g c)
                  ((from_bytes (sha256 m) * si) mod Curve.n c)
                  eq_refl HG Hn0) as (A & HA).
      destruct (Point__mul__ok c Hp Q ((r * si) mod Curve.n c)
                  eq_refl HQ Hn0) as (B & HB).
      unfold Point__rmul__. rewrite HA, HB. cbn [bind].
      pose proof (Point__mul__returns _ _ _ HA HG) as (HonA & HcA & _).
      pose proof (Point__mul__returns _ _ _ HB HQ) as (HonB & HcB & _).
      destruct (Point__add__ok c Hp A B HcA HcB HonA HonB) as (P & HP).
      exists P. split; [assumption |].
      apply Point__add__returns in HP; tauto. }
    destruct HP as (P & HP & HonP). exists P. split; [assumption |].
    rewrite HP. cbn [bind]. unfold is_identity.
    destruct (is_at_infinity P) eqn:Hinf; [reflexivity |].
    unfold on_curve, is_at_infinity in *.
    destruct (Point.x P), (Point.y P); try contradiction; try discriminate.
    reflexivity.
Qed.

(** C3 as stated fails where [n] is not prime: on [toy4], whose generator
    has order 4, the pair [(1, 2)] passes the range test and [s = 2] has no
    inverse modulo 4. *)
Lemma verify_signature_raises_for_composite_order :
  ecdsa.verify_signature (Curve_g toy4) [] (1, 2) = Raise ValueError.
Proof. reflexivity. Qed.

(** The signature [(13, 7)] of [b"abc"] under the key 7 on [toy19], whose
    public key is [7 * G = (0, 6)]. *)
Lemma verify_signature_returns_a_boolean_witness :
  ecdsa.verify_signature (finite toy19 0 6) abc (13, 7) = Ok true.
Proof.
  assert (HQ : on_curve (finite toy19 0 6))
    by (unfold on_curve; simpl; split; [lia | reflexivity]).
  assert (HG : on_curve (Curve_g toy19))
    by (unfold on_curve; simpl; split; [lia | reflexivity]).
  destruct (verify_signature_returns_a_boolean (finite toy19 0 6) abc 13 7
              prime_17 prime_19 HQ HG) as [_ H].
  destruct H as (P & HP & HV); [simpl; lia |].
  rewrite HV. vm_compute in HP. injection HP as <-. reflexivity.
Defined.

(** ** The arithmetic engine and the group of points *)

Lemma on_curve_toy19_g : on_curve (Curve_g toy19).
Proof. unfold on_curve; simpl. split; [lia | reflexivity]. Qed.

Lemma on_curve_toy19_7g : on_curve (finite toy19 0 6).
Proof. unfold on_curve; simpl. split; [lia | reflexivity]. Qed.

Lemma nonsingular_toy19 : nonsingular toy19.
Proof. unfold nonsingular. vm_compute. discriminate. Qed.

Lemma n_kills_toy19_g : n_kills (Curve_g toy19).
Proof. exists (finite toy19 5 16). split; vm_compute; reflexivity. Qed.

(** X1.  [_jacobian_add] computes the sum of the group.  Over a prime [p > 3],
    for triples whose [Z] is reduced, it returns a triple with [Z] reduced
    that stands for the chord-and-tangent sum of the points its arguments
    stand for ([(X / Z^2, Y / Z^3)], the identity when [Z = 0]): in the
    branches for an argument with [Z = 0], for equal points (doubling), for
    opposite points (the result is [(1, 1, 0)]) and in the general one. *)
Theorem jacobian_add_is_the_group_sum (c : Curve.t) (J1 J2 : jac) :
  Z.prime (Curve.p c) -> 3 < Curve.p c ->
  0 <= snd J1 < Curve.p c -> 0 <= snd J2 < Curve.p c ->
  exists J', _jacobian_add J1 J2 c = Ok J' /\ 0 <= snd J' < Curve.p c /\
             jaff c J' = a_add (fe c (Curve.a c)) (jaff c J1) (jaff c J2).
Proof. intros Hp Hp3 H1 H2. apply jacobian_add_aff; assumption. Qed.

(** The sum of [(5, 1)] and [(6, 3)] on [toy19], the second given with
    [Z = 2]. *)
Lemma jacobian_add_is_the_group_sum_witness :
  exists J', _jacobian_add (5, 1, 1) (7, 7, 2) toy19 = Ok J' /\
             0 <= snd J' < 17 /\
             jaff toy19 J' =
             a_add (fe toy19 2) (jaff toy19 (5, 1, 1)) (jaff toy19 (7, 7, 2)).
Proof.
  apply (jacobian_add_is_the_group_sum toy19 (5, 1, 1) (7, 7, 2));
    [exact prime_17 | simpl; lia | simpl; lia | simpl; lia].
Defined.

(** X2.  [_jacobian_double] computes the double in the group: over a prime
    [p > 3], for a triple whose [Z] is reduced, the triple it returns stands
    for the sum of the point with itself, which is the identity when [Y] is
    a multiple of [p] or [Z = 0]. *)
Theorem jacobian_double_is_the_group_double (c : Curve.t) (J : jac) :
  Z.prime (Curve.p c) -> 3 < Curve.p c -> 0 <= snd J < Curve.p c ->
  exists J', _jacobian_double J c = Ok J' /\ 0 <= snd J' < Curve.p c /\
             jaff c J' = a_add (fe c (Curve.a c)) (jaff c J) (jaff c J).
Proof. intros Hp Hp3 H1. apply jacobian_double_aff; assumption. Qed.

Lemma jacobian_double_is_the_group_double_witness :
  exists J', _jacobian_double (7, 7, 2) toy19 = Ok J' /\
             0 <= snd J' < 17 /\
             jaff toy19 J' =
             a_add (fe toy19 2) (jaff toy19 (7, 7, 2)) (jaff toy19 (7, 7, 2)).
Proof.
  apply (jacobian_double_is_the_group_double toy19 (7, 7, 2));
    [exact prime_17 | simpl; lia | simpl; lia].
Defined.

(** X3.  Addition of points is commutative: for two points of one curve object
    that satisfy its equation, over a prime [p > 3], [P + Q] and [Q + P]
    return the same point. *)
Theorem point_addition_commutes (P Q : Point.t) :
  Z.prime (Curve.p (Point.curve P)) -> 3 < Curve.p (Point.curve P) ->
  Point.curve Q = Point.curve P -> on_curve P -> on_curve Q ->
  exists R, Point__add__ P Q = Ok R /\ Point__add__ Q P = Ok R.
Proof.
  intros Hp Hp3 Hc HP HQ.
  apply Point__add__comm with (c := Point.curve P); auto.
Qed.

Lemma point_addition_commutes_witness :
  exists R, Point__add__ (Curve_g toy19) (finite toy19 0 6) = Ok R /\
            Point__add__ (finite toy19 0 6) (Curve_g toy19) = Ok R.
Proof.
  apply (point_addition_commutes (Curve_g toy19) (finite toy19 0 6)).
  - exact prime_17.
  - simpl; lia.
  - reflexivity.
  - exact on_curve_toy19_g.
  - exact on_curve_toy19_7g.
Defined.

(** X4.  Addition of points is associative: for three points of one curve object
    with coordinates in [[0, p)] that satisfy its equation, over a prime
    [p > 3] and with [4 a^3 + 27 b^2 <> 0 (mod p)], the sums [(P + Q) + R]
    and [P + (Q + R)] return the same point. *)
Theorem point_addition_associates (P Q R : Point.t) :
  Z.prime (Curve.p (Point.curve P)) -> 3 < Curve.p (Point.curve P) ->
  nonsingular (Point.curve P) ->
  Point.curve Q = Point.curve P -> Point.curve R = Point.curve P ->
  on_curve P -> on_curve Q -> on_curve R ->
  reduced P -> reduced Q -> reduced R ->
  exists PQ QR S,
    Point__add__ P Q = Ok PQ /\ Point__add__ PQ R = Ok S /\
    Point__add__ Q R = Ok QR /\ Point__add__ P QR = Ok S.
Proof.
  intros Hp Hp3 Hns HcQ HcR HP HQ HR RP RQ RR.
  apply Point__add__assoc with (c := Point.curve P); auto.
Qed.

Lemma point_addition_associates_witness :
  exists PQ QR S,
    Point__add__ (Curve_g toy19) (Curve_g toy19) = Ok PQ /\
    Point__add__ PQ (finite toy19 0 6) = Ok S /\
    Point__add__ (Curve_g toy19) (finite toy19 0 6) = Ok QR /\
    Point__add__ (Curve_g toy19) QR = Ok S.
Proof.
  apply (point_addition_associates (Curve_g toy19) (Curve_g toy19)
           (finite toy19 0 6)).
  - exact prime_17.
  - simpl; lia.
  - exact nonsingular_toy19.
  - reflexivity.
  - reflexivity.
  - exact on_curve_toy19_g.
  - exact on_curve_toy19_g.
  - exact on_curve_toy19_7g.
  - unfold reduced; simpl; lia.
  - unfold reduced; simpl; lia.
  - unfold reduced; simpl; lia.
Defined.

(** X5.  A point and its negation add up to the point at infinity: for every
    point that satisfies the equation of its curve, over a prime [p > 3],
    [-P] is returned and [P + (-P)] is the identity, also when [P] has
    [y = 0] and [-P] carries the coordinate [p]. *)
Theorem negation_is_the_inverse (P : Point.t) :
  Z.prime (Curve.p (Point.curve P)) -> 3 < Curve.p (Point.curve P) ->
  on_curve P ->
  exists N, Point__neg__ P = Ok N /\
            Point__add__ P N = Ok (infinity (Point.curve P)).
Proof.
  intros Hp Hp3 HP.
  apply Point__neg__inverse with (c := Point.curve P); auto.
Qed.

Lemma negation_is_the_inverse_witness :
  exists N, Point__neg__ (Curve_g toy19) = Ok N /\
            Point__add__ (Curve_g toy19) N = Ok (infinity toy19).
Proof.
  apply (negation_is_the_inverse (Curve_g toy19)).
  - exact prime_17.
  - simpl; lia.
  - exact on_curve_toy19_g.
Defined.

(** X6.  Multiplication distributes over the sum of scalars: on a point [P] of
    the curve with [(n - 1) * P + P] the identity, for all integers [j] and
    [k], negative ones included, [j * P + k * P] and [(j + k) * P] return
    the same point. *)
Theorem multiples_add_up (P : Point.t) (j k : Z) :
  Z.prime (Curve.p (Point.curve P)) -> 3 < Curve.p (Point.curve P) ->
  nonsingular (Point.curve P) -> 1 < Curve.n (Point.curve P) ->
  on_curve P -> n_kills P ->
  exists A B S,
    Point__mul__ P j = Ok A /\ Point__mul__ P k = Ok B /\
    Point__add__ A B = Ok S /\ Point__mul__ P (j + k) = Ok S.
Proof.
  intros Hp Hp3 Hns Hn HP Hk.
  apply Point__mul__add with (c := Point.curve P); auto.
Qed.

Lemma multiples_add_up_witness :
  exists A B S,
    Point__mul__ (Curve_g toy19) 12 = Ok A /\
    Point__mul__ (Curve_g toy19) (-5) = Ok B /\
    Point__add__ A B = Ok S /\ Point__mul__ (Curve_g toy19) (12 + -5) = Ok S.
Proof.
  apply (multiples_add_up (Curve_g toy19) 12 (-5)).
  - exact prime_17.
  - simpl; lia.
  - exact nonsingular_toy19.
  - simpl; lia.
  - exact on_curve_toy19_g.
  - exact n_kills_toy19_g.
Defined.

(** X7.  Multiplication composes: on a point [P] of the curve with
    [(n - 1) * P + P] the identity, for all integers [j] and [k],
    [j * (k * P)] and [(j * k) * P] return the same point. *)
Theorem multiples_compose (P : Point.t) (j k : Z) :
  Z.prime (Curve.p (Point.curve P)) -> 3 < Curve.p (Point.curve P) ->
  nonsingular (Point.curve P) -> 1 < Curve.n (Point.curve P) ->
  on_curve P -> n_kills P ->
  exists B S,
    Point__mul__ P k = Ok B /\ Point__mul__ B j = Ok S /\
    Point__mul__ P (j * k) = Ok S.
Proof.
  intros Hp Hp3 Hns Hn HP Hk.
  apply Point__mul__mul with (c := Point.curve P); auto.
Qed.

Lemma multiples_compose_witness :
  exists B S,
    Point__mul__ (Curve_g toy19) 7 = Ok B /\ Point__mul__ B (-3) = Ok S /\
    Point__mul__ (Curve_g toy19) (-3 * 7) = Ok S.
Proof.
  apply (multiples_compose (Curve_g toy19) (-3) 7).
  - exact prime_17.
  - simpl; lia.
  - exact nonsingular_toy19.
  - simpl; lia.
  - exact on_curve_toy19_g.
  - exact n_kills_toy19_g.
Defined.

(** ** Key agreement and the signature round trip *)

(** X8.  ECDH. On a non-singular curve over a prime [p > 3] whose generator
    satisfies the equation and is killed by [n > 1], for private keys [dA]
    and [dB] (any integers) with public keys [QA = dA * G] and
    [QB = dB * G], both parties derive the same point:
    [derive_shared_secret(dA, QB)] and [derive_shared_secret(dB, QA)] return
    and agree. *)
Theorem shared_secrets_agree (c : Curve.t) (dA dB : Z) (QA QB : Point.t) :
  Z.prime (Curve.p c) -> 3 < Curve.p c -> nonsingular c -> 1 < Curve.n c ->
  on_curve (Curve_g c) -> n_kills (Curve_g c) ->
  Point__rmul__ (Curve_g c) dA = Ok QA ->
  Point__rmul__ (Curve_g c) dB = Ok QB ->
  exists S, ecdh.derive_shared_secret dA QB = Ok S /\
            ecdh.derive_shared_secret dB QA = Ok S.
Proof.
  intros Hp Hp3 Hns Hn HG Hk HA HB. unfold Point__rmul__ in *.
  destruct (Point__mul__mul c Hp Hp3 Hns (Curve_g c) dA dB eq_refl HG Hn Hk)
    as (B & S1 & HB' & HS1 & HP1).
  destruct (Point__mul__mul c Hp Hp3 Hns (Curve_g c) dB dA eq_refl HG Hn Hk)
    as (A & S2 & HA' & HS2 & HP2).
  rewrite HB in HB'. injection HB' as <-.
  rewrite HA in HA'. injection HA' as <-.
  rewrite (Z.mul_comm dB dA), HP1 in HP2. injection HP2 as <-.
  exists S1. unfold ecdh.derive_shared_secret, Point__rmul__.
  rewrite HS1, HS2. split; reflexivity.
Qed.

(** The keys 7 and 12 on [toy19]: both sides reach [8 * G = (13, 7)]. *)
Lemma shared_secrets_agree_witness :
  exists S, ecdh.derive_shared_secret 7 (finite toy19 0 11) = Ok S /\
            ecdh.derive_shared_secret 12 (finite toy19 0 6) = Ok S.
Proof.
  apply (shared_secrets_agree toy19 7 12 (finite toy19 0 6) (finite toy19 0 11)).
  - exact prime_17.
  - simpl; lia.
  - exact nonsingular_toy19.
  - simpl; lia.
  - exact on_curve_toy19_g.
  - exact n_kills_toy19_g.
  - vm_compute. reflexivity.
  - vm_compute. reflexivity.
Defined.

Lemma pow_inv_Ok (z m zi : Z) :
  pow_inv z m = Ok zi -> (zi * z) mod m = 1 mod m.
Proof.
  unfold pow_inv. destruct (m =? 0); [discriminate |].
  destruct (Z.eqb_spec (Z.gcd z m) 1) as [Hg | _]; [| discriminate].
  intros H. injection H as <-. apply Z.invmod_coprime'. exact Hg.
Qed.

Section OrderField.

Variable n : Z.
Hypothesis Hn : Z.prime n.

#[local] Instance Fn_domain : Integral_domain (R := Zmod n) :=
  Integral_domain_Zmod n Hn.
#[local] Opaque Zmod.add Zmod.mul Zmod.sub Zmod.opp Zmod.zero Zmod.one
  Zmod.of_Z Zmod.inv.

(** The scalar [u1 + u2 * d] of the verification is the nonce [k]. *)
Lemma verification_scalar (k ki s si e r d : Z) :
  (ki * k) mod n = 1 mod n -> (si * s) mod n = 1 mod n ->
  s = (ki * (e + r * d)) mod n ->
  ((e * si) mod n + (r * si) mod n * (d mod n)) mod n = k mod n.
Proof.
  intros Hk Hs ->.
  apply Zmod.of_Z_inj in Hk, Hs. apply Zmod.of_Z_inj.
  repeat first
    [ rewrite Zmod.of_Z_mod in Hk | rewrite Zmod.of_Z_mul in Hk
    | rewrite Zmod.of_Z_add in Hk | rewrite Zmod.of_Z_1 in Hk ].
  repeat first
    [ rewrite Zmod.of_Z_mod in Hs | rewrite Zmod.of_Z_mul in Hs
    | rewrite Zmod.of_Z_add in Hs | rewrite Zmod.of_Z_1 in Hs ].
  repeat first
    [ rewrite Zmod.of_Z_mod | rewrite Zmod.of_Z_mul | rewrite Zmod.of_Z_add ].
  nsatz.
Qed.

End OrderField.

(** X9.  ECDSA round trip. On a non-singular curve over a prime [p > 3] whose
    generator satisfies the equation and is killed by the prime [n], for a
    private key [d] (any integer) with public key [Q = d * G] and any
    message: whenever [sign_message] returns a signature,
    [verify_signature] returns [True] on it. *)
Theorem signature_verifies (c : Curve.t) (depth fuel : nat) (d : Z)
  (m : bytes) (Q : Point.t) (sig : Z * Z) :
  Z.prime (Curve.p c) -> 3 < Curve.p c -> nonsingular c ->
  Z.prime (Curve.n c) -> on_curve (Curve_g c) -> n_kills (Curve_g c) ->
  Point__rmul__ (Curve_g c) d = Ok Q ->
  ecdsa.sign_message_at depth fuel d m c = Ok sig ->
  ecdsa.verify_signature Q m sig = Ok true.
Proof.
  intros Hp Hp3 Hns Hn HG Hk HQ Hsig.
  pose proof (Z.prime_ge_2 _ Hn) as Hn2.
  assert (Hn0 : 0 < Curve.n c) by lia.
  assert (Hn1 : 1 < Curve.n c) by lia.
  pose proof (n_kills_aff c Hp Hp3 Hns (Curve_g c) eq_refl HG Hn1 Hk) as Hord.
  pose proof (on_curve_aff c Hp (Curve_g c) eq_refl HG) as HonG.
  (* the public key *)
  destruct (Point__mul__spec c Hp Hp3 Hns (Curve_g c) d eq_refl HG Hn0 Hord)
    as (Q' & HQ' & HcQ & HonQ & HrQ & HaQ).
  unfold Point__rmul__ in HQ. rewrite HQ in HQ'. injection HQ' as <-.
  assert (HordQ : a_mul_nat (fe c (Curve.a c)) (Z.to_nat (Curve.n c)) (aff c Q)
                  = None).
  { rewrite HaQ. apply a_mul_nat_killed; assumption. }
  (* the signature *)
  apply sign_message_at_returns in Hsig. unfold sign_attempt in Hsig.
  bind_inv Hsig. rename u into k, Hm into Hnonce.
  apply rfc6979_k_range in Hnonce.
  bind_inv Hsig. rename u into R, Hm into HR. unfold Point__rmul__ in HR.
  destruct (Point.x R) as [xr |] eqn:HxR; [| discriminate].
  bind_inv Hsig. apply mod_guard_Ok in Hm. destruct Hm as [_ ->].
  destruct (Z.eqb_spec (xr mod Curve.n c) 0) as [E | Hr0]; [discriminate |].
  bind_inv Hsig. rename u into ki, Hm into Hki. apply pow_inv_Ok in Hki.
  match type of Hsig with (if ?t =? 0 then _ else _) = _ =>
    destruct (Z.eqb_spec t 0) as [E | Hs0]; [discriminate |];
    set (s := t) in * end.
  injection Hsig as <-.
  set (r := xr mod Curve.n c) in *.
  set (e := from_bytes (sha256 m)) in *.
  pose proof (Z.mod_pos_bound xr (Curve.n c) Hn0) as Hrb. fold r in Hrb.
  assert (Hsb : 0 <= s < Curve.n c) by (apply Z.mod_pos_bound; assumption).
  (* the verification *)
  unfold ecdsa.verify_signature. rewrite HcQ. fold e.
  replace ((1 <=? r) && (r <? Curve.n c) && ((1 <=? s) && (s <? Curve.n c)))
    with true by (symmetry; rewrite !andb_true_iff; lia).
  cbn [negb].
  destruct (pow_inv s (Curve.n c)) as [si | |] eqn:Hsi;
    [| destruct (pow_inv_prime_order _ s Hn) as (x & Hx); [lia | congruence]
     | destruct (pow_inv_prime_order _ s Hn) as (x & Hx); [lia | congruence]].
  cbn [bind]. apply pow_inv_Ok in Hsi.
  set (u1 := (e * si) mod Curve.n c). set (u2 := (r * si) mod Curve.n c).
  unfold Point__rmul__.
  destruct (Point__mul__spec c Hp Hp3 Hns (Curve_g c) u1 eq_refl HG Hn0 Hord)
    as (A & -> & HcA & HonA & HrA & HaA).
  destruct (Point__mul__spec c Hp Hp3 Hns Q u2 HcQ HonQ Hn0 HordQ)
    as (B & -> & HcB & HonB & HrB & HaB).
  cbn [bind].
  destruct (Point__add__spec c Hp Hp3 A B HcA HcB HonA HonB)
    as (S & -> & HcS & HonS & HrS & HaS).
  cbn [bind].
  destruct (Point__mul__spec c Hp Hp3 Hns (Curve_g c) k eq_refl HG Hn0 Hord)
    as (R' & HR' & HcR & HonR & HrR & HaR).
  rewrite HR in HR'. injection HR' as <-.
  assert (ES : S = R).
  { apply (aff_inj c); auto.
    rewrite HaS, HaA, HaB, HaQ, HaR.
    rewrite <- (a_mul_nat_mul c Hp Hp3 _ _ (disc_nz c Hp Hns)) by assumption.
    rewrite <- (a_mul_nat_add c Hp Hp3 _ _ (disc_nz c Hp Hns)) by assumption.
    pose proof (Z.mod_pos_bound u1 (Curve.n c) Hn0).
    pose proof (Z.mod_pos_bound u2 (Curve.n c) Hn0).
    pose proof (Z.mod_pos_bound d (Curve.n c) Hn0).
    rewrite <- Z2Nat.inj_mul, <- Z2Nat.inj_add by nia.
    rewrite <- (a_mul_nat_mod_Z c Hp Hp3 Hns (Curve.n c)
                  (u1 mod Curve.n c
                   + u2 mod Curve.n c * (d mod Curve.n c)))
      by (assumption || nia).
    do 2 f_equal. unfold u1, u2. rewrite !Z.mod_mod by lia.
    apply (verification_scalar (Curve.n c) Hn k ki s si e r d);
      [assumption | assumption | reflexivity]. }
  subst S. unfold is_identity, is_at_infinity. rewrite HxR.
  fold r. rewrite Z.eqb_refl. reflexivity.
Qed.

(** The key 7 on [toy19], its public key [(0, 6)] and the signature
    [(13, 7)] of [b"abc"]. *)
Lemma signature_verifies_witness :
  ecdsa.verify_signature (finite toy19 0 6) abc (13, 7) = Ok true.
Proof.
  apply (signature_verifies toy19 1 10 7 abc (finite toy19 0 6) (13, 7)).
  - exact prime_17.
  - simpl; lia.
  - exact nonsingular_toy19.
  - exact prime_19.
  - exact on_curve_toy19_g.
  - exact n_kills_toy19_g.
  - vm_compute. reflexivity.
  - vm_compute. reflexivity.
Defined.

(** ** Conversions, comparison and the remaining error paths *)

(** X10.  The conversion to Jacobian coordinates and back reduces the coordinates
    modulo [p] and changes nothing else: for a point that satisfies the
    equation of its curve, with [p > 1], [_from_jacobian(_to_jacobian(P))]
    returns the point with coordinates [x mod p] and [y mod p], which is [P]
    itself when the coordinates of [P] are in [[0, p)] and when [P] is the
    identity. *)
Theorem jacobian_round_trip (P : Point.t) :
  1 < Curve.p (Point.curve P) -> on_curve P ->
  exists J, _to_jacobian P = Ok J /\
            _from_jacobian J (Point.curve P) = Ok (normalize P) /\
            (reduced P -> normalize P = P).
Proof.
  destruct P as [c x y]. unfold on_curve, reduced, normalize, _to_jacobian.
  simpl. intros Hp Hon.
  destruct x as [xv |], y as [yv |]; try contradiction.
  - destruct Hon as [_ Hr].
    exists (xv, yv, 1). split; [reflexivity |]. split.
    + unfold _from_jacobian, pow_inv. cbn [Z.eqb].
      destruct (Z.eqb_spec (Curve.p c) 0) as [E | _]; [lia |].
      rewrite Z.gcd_1_l, Z.invmod_1_l, (Z.mod_small 1) by lia.
      cbn [Z.eqb Pos.eqb bind option_map].
      change (1 * 1) with 1. rewrite (Z.mod_small 1) by lia.
      rewrite !Z.mul_1_r.
      apply Point__init__accepts; [lia |].
      rewrite <- Hr. unfold curve_residue. apply fe_eq.
      repeat first
        [ rewrite fe_mod | rewrite fe_sub | rewrite fe_add | rewrite fe_mul
        | rewrite fe_pow2 | rewrite fe_pow3 ].
      reflexivity.
    + simpl. intros [Hx Hy]. rewrite !Z.mod_small by assumption. reflexivity.
  - exists (1, 1, 0). split; [reflexivity |]. split; reflexivity.
Qed.

(** The point [(22, 18)] on [toy19] comes back as the generator
    [(5, 1)]. *)
Lemma jacobian_round_trip_witness :
  exists J, _to_jacobian (finite toy19 22 18) = Ok J /\
            _from_jacobian J toy19 = Ok (Curve_g toy19).
Proof.
  destruct (jacobian_round_trip (finite toy19 22 18)) as (J & HJ & HP & _).
  - simpl; lia.
  - unfold on_curve; simpl. split; [lia | reflexivity].
  - exists J. split; [exact HJ | exact HP].
Defined.

(** X11.  [modular_inverse(n, p)] for a prime [p]: when [p] does not divide [n]
    the result is the inverse of [n] modulo [p], in [[0, p)]; when [p]
    divides [n] and [p > 2] the call returns 0 and raises nothing, although
    [n] has no inverse. *)
Theorem modular_inverse_of_prime_modulus (n p : Z) :
  Z.prime p ->
  (n mod p <> 0 ->
   exists i, modular_inverse n p = Ok i /\ 0 <= i < p /\ (n * i) mod p = 1) /\
  (n mod p = 0 -> 2 < p -> modular_inverse n p = Ok 0).
Proof.
  intros Hp. pose proof (Z.prime_ge_2 _ Hp) as Hp2.
  unfold modular_inverse, pow_mod.
  destruct (Z.eqb_spec p 0) as [E | _]; [lia |].
  destruct (Z.ltb_spec (p - 2) 0) as [E | _]; [lia |].
  split.
  - intros Hn. eexists; split; [reflexivity |].
    split; [apply Z.mod_pos_bound; lia |].
    rewrite Z.mul_mod_idemp_r by lia.
    rewrite <- Z.pow_succ_r by lia.
    replace (Z.succ (p - 2)) with (p - 1) by lia.
    apply Z.fermat_nz; assumption.
  - intros Hn Hp3. f_equal.
    rewrite <- Z.mod_pow_l, Hn, Z.pow_0_l by lia. apply Z.mod_0_l. lia.
Qed.

Lemma modular_inverse_of_prime_modulus_witness :
  modular_inverse 5 17 = Ok 7 /\ modular_inverse 34 17 = Ok 0.
Proof.
  destruct (modular_inverse_of_prime_modulus 5 17 prime_17) as [H _].
  destruct (modular_inverse_of_prime_modulus 34 17 prime_17) as [_ H0].
  destruct H as (i & Hi & _ & _); [vm_compute; discriminate |].
  split.
  - rewrite Hi. vm_compute in Hi. injection Hi as <-. reflexivity.
  - apply H0; [reflexivity | lia].
Defined.

(** X12.  Points of one curve object compare by their coordinates: [==] returns,
    and returns [True] exactly when the two points are the same point.
    Coordinates are compared as integers, not modulo [p]. *)
Theorem points_of_one_curve_compare_by_coordinates (P Q : Point.t) :
  Point.curve P = Point.curve Q ->
  exists b, Point__eq__ P Q = Ok b /\ (b = true <-> P = Q).
Proof.
  intros Hc. rewrite Point__eq__same_curve by assumption.
  eexists; split; [reflexivity |].
  destruct P as [cP xP yP], Q as [cQ xQ yQ]. simpl in *. subst cQ.
  unfold opt_eqb. split.
  - intros H. apply andb_true_iff in H. destruct H as [Hx Hy].
    destruct xP, xQ, yP, yQ; try discriminate;
      repeat match goal with
      | H : (_ =? _) = true |- _ => apply Z.eqb_eq in H; subst
      end; reflexivity.
  - intros H. injection H as <- <-.
    destruct xP, yP; rewrite ?Z.eqb_refl; reflexivity.
Qed.

Lemma points_of_one_curve_compare_by_coordinates_witness :
  Point__eq__ (finite toy2 1 0) (finite toy2 1 5) = Ok false.
Proof.
  destruct (points_of_one_curve_compare_by_coordinates
              (finite toy2 1 0) (finite toy2 1 5) eq_refl) as (b & Hb & Hiff).
  rewrite Hb. destruct b; [| reflexivity].
  destruct Hiff as [H _]. specialize (H eq_refl). discriminate H.
Defined.

(** X13.  Adding points of curves that differ in [name], [p], [a], [b] or [n]
    raises [TypeError], whatever the points are. *)
Theorem adding_points_of_different_curves_raises (P Q : Point.t) :
  Curve.name (Point.curve P) <> Curve.name (Point.curve Q) \/
  Curve.p (Point.curve P) <> Curve.p (Point.curve Q) \/
  Curve.a (Point.curve P) <> Curve.a (Point.curve Q) \/
  Curve.b (Point.curve P) <> Curve.b (Point.curve Q) \/
  Curve.n (Point.curve P) <> Curve.n (Point.curve Q) ->
  Point__add__ P Q = Raise TypeError.
Proof.
  intros H. unfold Point__add__.
  assert (E : Curve__eq__ (Point.curve P) (Point.curve Q) = Ok false).
  { unfold Curve__eq__, recursion_limit.
    change 1000%nat with (S 999). generalize 999%nat. intros d.
    cbn [Curve_eq_at].
    destruct (String.eqb_spec (Curve.name (Point.curve P))
                (Curve.name (Point.curve Q))) as [En | En];
      [| reflexivity].
    cbn [negb].
    destruct (Z.eqb_spec (Curve.p (Point.curve P)) (Curve.p (Point.curve Q)));
      [| reflexivity].
    destruct (Z.eqb_spec (Curve.a (Point.curve P)) (Curve.a (Point.curve Q)));
      [| reflexivity].
    destruct (Z.eqb_spec (Curve.b (Point.curve P)) (Curve.b (Point.curve Q)));
      [| reflexivity].
    destruct (Z.eqb_spec (Curve.n (Point.curve P)) (Curve.n (Point.curve Q)));
      [| reflexivity].
    exfalso. tauto. }
  rewrite E. reflexivity.
Qed.

Lemma adding_points_of_different_curves_raises_witness :
  Point__add__ (Curve_g toy2) (Curve_g toy19) = Raise TypeError.
Proof.
  apply adding_points_of_different_curves_raises.
  right; left. simpl. lia.
Defined.

(** ** Nonces, signatures and keys *)

(** X14.  The nonce of RFC 6979 is in [[1, n - 1]] whenever the derivation
    returns one, and the private key then fits the byte length of [n]:
    [0 <= priv_key < 256 ^ n_len]. *)
Theorem nonce_is_in_range (fuel : nat) (priv_key : Z) (msg_hash : bytes)
  (curve : Curve.t) (k : Z) :
  ecdsa._rfc6979_k fuel priv_key msg_hash curve = Ok k ->
  1 <= k < Curve.n curve /\
  0 <= priv_key < 256 ^ ((bit_length (Curve.n curve) + 7) / 8).
Proof.
  unfold ecdsa._rfc6979_k. intros H. bind_inv H. bind_inv H. split.
  - eapply h_loop_range; eassumption.
  - unfold to_bytes in Hm.
    destruct (_ <? 0); [discriminate |].
    destruct (Z.ltb_spec priv_key 0); [discriminate |].
    destruct (Z.leb_spec (256 ^ ((bit_length (Curve.n curve) + 7) / 8))
                priv_key); [discriminate |].
    lia.
Qed.

Lemma nonce_is_in_range_witness : 1 <= 8 < 19 /\ 0 <= 7 < 256 ^ 1.
Proof.
  apply (nonce_is_in_range 10 7 (sha256 abc) toy19 8).
  vm_compute. reflexivity.
Defined.

(** X15.  Whatever [sign_message] returns passes the range test of
    [verify_signature]: both components are in [[1, n - 1]]. *)
Theorem signature_components_are_in_range (depth fuel : nat)
  (private_key : Z) (message : bytes) (curve : Curve.t) (r s : Z) :
  ecdsa.sign_message_at depth fuel private_key message curve = Ok (r, s) ->
  1 <= r < Curve.n curve /\ 1 <= s < Curve.n curve.
Proof.
  intros H. apply sign_message_at_returns in H. unfold sign_attempt in H.
  bind_inv H. apply rfc6979_k_range in Hm. bind_inv H.
  destruct (Point.x u0) as [xr |]; [| discriminate].
  bind_inv H. apply mod_guard_Ok in Hm1. destruct Hm1 as [_ ->].
  destruct (Z.eqb_spec (xr mod Curve.n curve) 0) as [E | Hr]; [discriminate |].
  bind_inv H.
  match type of H with (if ?t =? 0 then _ else _) = _ =>
    destruct (Z.eqb_spec t 0) as [E | Hs]; [discriminate |];
    pose proof (Z.mod_pos_bound
                  (u1 * (from_bytes (sha256 message)
                         + xr mod Curve.n curve * private_key))
                  (Curve.n curve)) as Hsb end.
  injection H as <- <-.
  pose proof (Z.mod_pos_bound xr (Curve.n curve)). lia.
Qed.

Lemma signature_components_are_in_range_witness :
  1 <= 13 < 19 /\ 1 <= 7 < 19.
Proof.
  apply (signature_components_are_in_range 1 10 7 abc toy19 13 7).
  vm_compute. reflexivity.
Defined.

Lemma bit_length_nonneg (n : Z) : 0 <= bit_length n.
Proof.
  unfold bit_length. destruct (n =? 0); [lia |].
  pose proof (Z.log2_nonneg (Z.abs n)). lia.
Qed.

(** X16.  A private key that is negative, or does not fit the byte length of [n],
    makes [sign_message] raise [OverflowError]: the key is not reduced
    modulo [n] before [to_bytes]. *)
Theorem signing_rejects_a_key_that_does_not_fit (depth fuel : nat)
  (private_key : Z) (message : bytes) (curve : Curve.t) :
  private_key < 0 \/
  256 ^ ((bit_length (Curve.n curve) + 7) / 8) <= private_key ->
  ecdsa.sign_message_at (S depth) fuel private_key message curve
  = Raise OverflowError.
Proof.
  intros H. cbn [ecdsa.sign_message_at].
  assert (E : ecdsa._rfc6979_k fuel private_key (sha256 message) curve
              = Raise OverflowError).
  { unfold ecdsa._rfc6979_k, to_bytes.
    pose proof (bit_length_nonneg (Curve.n curve)) as Hb.
    destruct (Z.ltb_spec ((bit_length (Curve.n curve) + 7) / 8) 0) as [E | _].
    { exfalso. pose proof (Z.div_pos (bit_length (Curve.n curve) + 7) 8).
      lia. }
    destruct (Z.ltb_spec private_key 0) as [_ | Hge]; [reflexivity |].
    destruct (Z.leb_spec (256 ^ ((bit_length (Curve.n curve) + 7) / 8))
                private_key) as [_ | Hlt]; [reflexivity | lia]. }
  rewrite E. reflexivity.
Qed.

(** On [toy19] the order takes one byte: the key 256 does not fit. *)
Lemma signing_rejects_a_key_that_does_not_fit_witness :
  ecdsa.sign_message_at 1 10 256 abc toy19 = Raise OverflowError.
Proof.
  apply (signing_rejects_a_key_that_does_not_fit 0 10 256 abc toy19).
  right. vm_compute. discriminate.
Defined.

(** X17.  Key generation for ECDH draws the private key from [[1, n - 1]] and
    returns it with [private_key * G]; for [n <= 1] it raises [ValueError]
    (from its own test when [n = 0], from [secrets.randbelow]
    otherwise). *)
Theorem ecdh_private_key_is_in_range (entropy : Z) (curve : Curve.t) :
  (forall d Q, ecdh.generate_key_pair entropy curve = Ok (d, Q) ->
     1 <= d < Curve.n curve /\ Point__rmul__ (Curve_g curve) d = Ok Q) /\
  (Curve.n curve <= 1 ->
   ecdh.generate_key_pair entropy curve = Raise ValueError).
Proof.
  unfold ecdh.generate_key_pair, randbelow. split.
  - intros d Q H.
    destruct (Curve.n curve =? 0); [discriminate |].
    destruct (Z.leb_spec (Curve.n curve - 1) 0) as [E | E]; [discriminate |].
    cbn [bind] in H. bind_inv H. injection H as <- <-.
    pose proof (Z.mod_pos_bound entropy (Curve.n curve - 1) E).
    split; [lia | assumption].
  - intros Hn. destruct (Curve.n curve =? 0); [reflexivity |].
    destruct (Z.leb_spec (Curve.n curve - 1) 0) as [E | E]; [reflexivity | lia].
Qed.

(** X18.  Key generation for ECDSA draws the private key from [[0, n - 1]]: the
    key 0 is possible, and its public key is the point at infinity. *)
Theorem ecdsa_private_key_can_be_zero (curve : Curve.t) :
  (forall entropy d Q,
     ecdsa.generate_key_pair entropy curve = Ok (d, Q) ->
     0 <= d < Curve.n curve /\ Point__rmul__ (Curve_g curve) d = Ok Q) /\
  (forall j, 0 < Curve.n curve ->
     ecdsa.generate_key_pair (j * Curve.n curve) curve
     = Ok (0, infinity curve)).
Proof.
  unfold ecdsa.generate_key_pair, randbelow. split.
  - intros entropy d Q H.
    destruct (Z.leb_spec (Curve.n curve) 0) as [E | E]; [discriminate |].
    cbn [bind] in H. bind_inv H. injection H as <- <-.
    pose proof (Z.mod_pos_bound entropy (Curve.n curve) E).
    split; [lia | assumption].
  - intros j Hn.
    destruct (Z.leb_spec (Curve.n curve) 0) as [E | E]; [lia |].
    cbn [bind]. rewrite Z_mod_mult.
    unfold Point__rmul__, Point__mul__, Curve_g. cbn [is_at_infinity Point.x Point.y Point.curve].
    rewrite mod_guard_nonzero by lia. cbn [bind].
    rewrite Z.mod_0_l by lia. reflexivity.
Qed.

(** X19.  The loop of [__mul__] computes the repeated sum.  On a non-singular
    curve over a prime [p > 3], for a point that satisfies the equation and
    a scalar [k > 0] that is not a multiple of [n], [k * P] returns a point
    with coordinates in [[0, p)] that stands for the sum of [k] copies of
    [P] in the group; nothing is assumed of the order of [P]. *)
Theorem multiplication_is_the_repeated_sum (P : Point.t) (k : Z) :
  Z.prime (Curve.p (Point.curve P)) -> 3 < Curve.p (Point.curve P) ->
  nonsingular (Point.curve P) -> on_curve P ->
  Curve.n (Point.curve P) <> 0 -> 0 < k ->
  k mod Curve.n (Point.curve P) <> 0 ->
  exists R, Point__mul__ P k = Ok R /\ reduced R /\
            aff (Point.curve P) R =
            a_mul_nat (fe (Point.curve P) (Curve.a (Point.curve P)))
              (Z.to_nat k) (aff (Point.curve P) P).
Proof.
  intros Hp Hp3 Hns HP Hn Hk Hkn.
  destruct (Point__mul__aff_pos (Point.curve P) Hp Hp3 Hns P k eq_refl HP Hn
              Hk Hkn) as (R & HR & Ha).
  exists R. split; [assumption |]. split; [| assumption].
  pose proof (Point__mul__returns _ _ _ HR HP) as (_ & _ & Hred).
  apply Hred. lia.
Qed.

(** [3 * G] on [toy19]. *)
Lemma multiplication_is_the_repeated_sum_witness :
  exists R, Point__mul__ (Curve_g toy19) 3 = Ok R /\ reduced R /\
            aff toy19 R = a_mul_nat (fe toy19 2) 3 (aff toy19 (Curve_g toy19)).
Proof.
  apply (multiplication_is_the_repeated_sum (Curve_g toy19) 3).
  - exact prime_17.
  - simpl; lia.
  - exact nonsingular_toy19.
  - exact on_curve_toy19_g.
  - simpl; lia.
  - lia.
  - vm_compute. discriminate.
Defined.

(** X20.  Negation is an involution: for a finite or infinite point that
    satisfies the equation of its curve, [-P] is returned and [-(-P)] is [P]
    itself, coordinate for coordinate ([p - (p - y) = y], with no
    reduction), also when [y = 0] and [-P] carries the coordinate [p]. *)
Theorem double_negation_returns_the_point (P : Point.t) :
  on_curve P ->
  exists N, Point__neg__ P = Ok N /\ Point__neg__ N = Ok P.
Proof.
  destruct P as [c x y]. unfold on_curve, Point__neg__, is_at_infinity.
  simpl. intros Hon.
  destruct x as [xv |], y as [yv |]; try contradiction.
  - destruct Hon as [Hp Hr].
    rewrite Point__init__accepts;
      [| assumption | rewrite curve_residue_neg; assumption].
    eexists; split; [reflexivity |]. simpl.
    replace (Curve.p c - (Curve.p c - yv)) with yv by ring.
    apply Point__init__accepts; assumption.
  - eexists; split; reflexivity.
Qed.

(** The point [(1, 0)] of order two on [toy2], whose negation is
    [(1, 5)]. *)
Lemma double_negation_returns_the_point_witness :
  Point__neg__ (finite toy2 1 0) = Ok (finite toy2 1 5) /\
  Point__neg__ (finite toy2 1 5) = Ok (finite toy2 1 0).
Proof.
  destruct (double_negation_returns_the_point (finite toy2 1 0))
    as (N & HN & HP).
  - unfold on_curve; simpl. split; [lia | reflexivity].
  - assert (E : N = finite toy2 1 5).
    { vm_compute in HN. injection HN as <-. reflexivity. }
    subst N. split; [exact HN | exact HP].
Defined.

(** X21.  The next multiple is the previous one plus the point, as the tests of
    the repository check for [2 * G] and [3 * G]: on a non-singular curve
    over a prime [p > 3], for a point with coordinates in [[0, p)] that
    satisfies the equation and [k > 0] with neither [k] nor [k + 1] a
    multiple of [n], [k * P + P] and [(k + 1) * P] return the same point.
    Nothing is assumed of the order of [P]. *)
Theorem successive_multiples (P : Point.t) (k : Z) :
  Z.prime (Curve.p (Point.curve P)) -> 3 < Curve.p (Point.curve P) ->
  nonsingular (Point.curve P) -> on_curve P -> reduced P ->
  Curve.n (Point.curve P) <> 0 -> 0 < k ->
  k mod Curve.n (Point.curve P) <> 0 ->
  (k + 1) mod Curve.n (Point.curve P) <> 0 ->
  exists A S, Point__mul__ P k = Ok A /\ Point__add__ A P = Ok S /\
              Point__mul__ P (k + 1) = Ok S.
Proof.
  intros Hp Hp3 Hns HP RP Hn Hk Hkn Hkn'.
  set (c := Point.curve P) in *.
  destruct (Point__mul__aff_pos c Hp Hp3 Hns P k eq_refl HP Hn Hk Hkn)
    as (A & HA & HaA).
  destruct (Point__mul__aff_pos c Hp Hp3 Hns P (k + 1) eq_refl HP Hn)
    as (S2 & HS2 & HaS2); [lia | assumption |].
  pose proof (Point__mul__returns _ _ _ HA HP) as (HonA & HcA & HrA).
  pose proof (Point__mul__returns _ _ _ HS2 HP) as (HonS2 & HcS2 & HrS2).
  fold c in HcA, HcS2, HrA, HrS2.
  destruct (Point__add__spec c Hp Hp3 A P HcA eq_refl HonA HP)
    as (S1 & HS1 & HcS1 & HonS1 & HrS1 & HaS1).
  exists A, S1. split; [assumption |]. split; [assumption |].
  rewrite HS2. f_equal. apply (aff_inj c); auto.
  - apply HrS2. lia.
  - apply HrS1; [apply HrA; lia | assumption].
  - rewrite HaS1, HaS2, HaA.
    replace (Z.to_nat (k + 1)) with (S (Z.to_nat k)) by lia.
    cbn [a_mul_nat].
    pose proof (on_curve_aff c Hp P eq_refl HP) as Hon.
    apply (a_add_comm c Hp Hp3 _ (fe c (Curve.b c))); [assumption |].
    apply (a_mul_nat_on c Hp Hp3). assumption.
Qed.

(** [2 * G + G = 3 * G] on [toy19]. *)
Lemma successive_multiples_witness :
  exists A S, Point__mul__ (Curve_g toy19) 2 = Ok A /\
              Point__add__ A (Curve_g toy19) = Ok S /\
              Point__mul__ (Curve_g toy19) (2 + 1) = Ok S.
Proof.
  apply (successive_multiples (Curve_g toy19) 2).
  - exact prime_17.
  - simpl; lia.
  - exact nonsingular_toy19.
  - exact on_curve_toy19_g.
  - unfold reduced; simpl; lia.
  - simpl; lia.
  - lia.
  - vm_compute. discriminate.
  - vm_compute. discriminate.
Defined.

(** X22.  [verify_signature] accepts the point at infinity as a public key, and
    then checks no key at all: for [r] and [s] in range, with
    [R = u1 * G] for [u1 = hash * s^-1 mod n], the verdict is
    [R.x mod n == r] ([False] when [R] is the identity).  Whoever picks [s]
    and reads [r] off [u1 * G] obtains a signature that verifies. *)
Theorem identity_public_key_checks_no_key (c : Curve.t) (m : bytes)
  (r s si : Z) (R : Point.t) :
  on_curve (Curve_g c) ->
  1 <= r < Curve.n c -> 1 <= s < Curve.n c ->
  pow_inv s (Curve.n c) = Ok si ->
  Point__rmul__ (Curve_g c) ((from_bytes (sha256 m) * si) mod Curve.n c)
  = Ok R ->
  ecdsa.verify_signature (infinity c) m (r, s) =
  Ok (match Point.x R with
      | Some xv => xv mod Curve.n c =? r
      | None => false
      end).
Proof.
  intros HG Hr Hs Hsi HR.
  unfold ecdsa.verify_signature. cbn [Point.curve infinity].
  replace ((1 <=? r) && (r <? Curve.n c) && ((1 <=? s) && (s <? Curve.n c)))
    with true by (symmetry; rewrite !andb_true_iff; lia).
  cbn [negb]. rewrite Hsi. cbn [bind]. rewrite HR. cbn [bind].
  unfold Point__rmul__ in *.
  pose proof (Point__mul__returns _ _ _ HR HG) as (HonR & HcR & _).
  change (Point.curve (Curve_g c)) with c in HcR.
  assert (HO : Point__mul__ (infinity c) ((r * si) mod Curve.n c)
               = Ok (infinity c)) by reflexivity.
  rewrite HO. cbn [bind].
  unfold Point__add__. rewrite HcR. cbn [Point.curve infinity].
  rewrite Curve__eq__same_object. cbn [bind negb].
  clear HR HO. destruct R as [cR xR yR].
  unfold on_curve, is_identity, is_at_infinity in *. simpl in *.
  destruct xR as [xv |], yR as [yv |]; try contradiction; reflexivity.
Qed.

(** On [toy19], for [b"abc"]: [s = 1] gives [u1 = 3], [3 * G = (10, 6)]
    and the pair [(10, 1)] verifies under the identity. *)
Lemma identity_public_key_checks_no_key_witness :
  ecdsa.verify_signature (infinity toy19) abc (10, 1) = Ok true.
Proof.
  rewrite (identity_public_key_checks_no_key toy19 abc 10 1 1
             (finite toy19 10 6)).
  - reflexivity.
  - exact on_curve_toy19_g.
  - simpl; lia.
  - simpl; lia.
  - reflexivity.
  - vm_compute. reflexivity.
Defined.
